(** * htmlutil: named-reference scanning, ambiguous-ampersand escaping and
      CSS3 identifier validation

    A shallow embedding of the Go packages [checker] and [escaper].

    A Go [string] is a sequence of bytes; it is modelled as a list of
    8-bit characters ([ascii]).  Byte and rune values, indexes and
    lengths are integers ([Z]), because the code uses [-1] as an index
    meaning "not found" and as the start position of a scanner.

    Go run-time panics (index or slice bounds out of range) are part of
    the model: a computation returns an [outcome].  The unbounded
    [for { ... }] loops that drive the scanner take a step budget; the
    budget used by the top-level functions is shown to be sufficient. *)

From Stdlib Require Import ZArith List Bool Ascii String Lia.
Import ListNotations.

Local Open Scope Z_scope.

(* ------------------------------------------------------------------ *)
(** ** Bytes and text *)

Definition text := list ascii.

(** The bytes of a string literal. *)
Definition txt (s : string) : text := list_ascii_of_string s.

(** Numeric value of a byte. *)
Definition code (c : ascii) : Z := Z.of_N (N_of_ascii c).

(** [len(s)] *)
Definition len (s : text) : Z := Z.of_nat (List.length s).

(** Unicode characters (attributes.go, htmlescaper.go). *)
Definition UnicodeAmpersand : ascii := "&"%char.
Definition UnicodeSemicolon : ascii := ";"%char.
Definition UnicodeQuoteMark : ascii :=
  Ascii false true false false false true false false.   (* U+0022 *)

(* ------------------------------------------------------------------ *)
(** ** Outcomes: a result, a run-time panic, or an exhausted budget *)

Inductive outcome (A : Type) : Type :=
| Ret (a : A)
| Panic
| OutOfFuel.

Arguments Ret {A} a.
Arguments Panic {A}.
Arguments OutOfFuel {A}.

Definition bind {A B : Type} (m : outcome A) (k : A -> outcome B) : outcome B :=
  match m with
  | Ret a => k a
  | Panic => Panic
  | OutOfFuel => OutOfFuel
  end.

Notation "x <- m ;; k" := (bind m (fun x => k))
  (at level 61, m at next level, right associativity).
Notation "' p <- m ;; k" := (bind m (fun x => let p := x in k))
  (at level 61, p pattern, m at next level, right associativity).

(** [s[lo:hi]]; panics unless [0 <= lo <= hi <= len(s)]. *)
Definition slice (s : text) (lo hi : Z) : outcome text :=
  if (0 <=? lo) && (lo <=? hi) && (hi <=? len s)
  then Ret (firstn (Z.to_nat (hi - lo)) (skipn (Z.to_nat lo) s))
  else Panic.

(* ------------------------------------------------------------------ *)
(** ** The named-reference scanner (attributes.go) *)

Record NamedReferenceScanner : Type := mkScanner {
  Value : text;     (* The string to be scanned. *)
  LastIndex : Z     (* Where Next last finished, or -1 to start. *)
}.

Definition NewNamedReferenceScanner (value : text) : NamedReferenceScanner :=
  mkScanner value (-1).

(** The three range tests of the inner loop of [Next]. *)
Definition isAlnum (cur2 : ascii) : bool :=
  let isLower := (code "a" <=? code cur2) && (code cur2 <=? code "z") in
  let isUpper := (code "A" <=? code cur2) && (code cur2 <=? code "Z") in
  let isNumber := (code "0" <=? code cur2) && (code cur2 <=? code "9") in
  isLower || isUpper || isNumber.

(** Inner loop of [Next]: [for j := i + 1; j < length; j++].  [rest] is
    [Value[j:]].  [Some j] is the index of the semicolon at which the
    function returns; [None] means the loop ended ([break], or [j]
    reached [length]). *)
Fixpoint nameLoop (rest : text) (j : Z) : option Z :=
  match rest with
  | [] => None
  | cur2 :: rest' =>
      if Ascii.eqb cur2 UnicodeSemicolon then Some j
      else if negb (isAlnum cur2) then None
      else nameLoop rest' (j + 1)
  end.

(** Outer loop of [Next]: [for i := first; i < length; i++].  [rest] is
    [Value[i:]].  [Some (i, j)]: the function returns inside the loop with
    the ampersand at [i] and the semicolon at [j]; [None]: the loop ran to
    the end. *)
Fixpoint ampLoop (rest : text) (i : Z) : option (Z * Z) :=
  match rest with
  | [] => None
  | cur :: rest' =>
      if Ascii.eqb cur UnicodeAmpersand then
        match rest' with
        | next :: _ =>
            if Ascii.eqb next UnicodeSemicolon
            then ampLoop rest' (i + 1)              (* continue *)
            else match nameLoop rest' (i + 1) with
                 | Some j => Some (i, j)
                 | None => ampLoop rest' (i + 1)
                 end
        | [] =>
            match nameLoop rest' (i + 1) with
            | Some j => Some (i, j)
            | None => ampLoop rest' (i + 1)
            end
        end
      else ampLoop rest' (i + 1)
  end.

(** [Next]: the name, the index of the ampersand, and the scanner after
    the call.  Reading [Value[i]] at a negative [i] panics.  Go's [int] is
    modelled by [Z], without wrap-around: the sum [LastIndex + 1] does not
    wrap for [LastIndex] between [-1] and [len(Value)], which are the
    values that [NewNamedReferenceScanner], [Next] and [Reset] give it (a
    string is shorter than the largest [int]); the properties of [Next]
    for a [LastIndex] set by the caller are stated on that range. *)
Definition Next (scanner : NamedReferenceScanner)
  : outcome (text * Z * NamedReferenceScanner) :=
  let length := len (Value scanner) in
  let first := LastIndex scanner + 1 in
  if (first <? 0) && (first <? length) then Panic
  else
    match ampLoop (skipn (Z.to_nat first) (Value scanner)) first with
    | Some (i, j) =>
        name <- slice (Value scanner) (i + 1) j ;;
        Ret (name, i, mkScanner (Value scanner) j)
    | None =>
        Ret ([], -1, mkScanner (Value scanner) length)
    end.

Definition Reset (scanner : NamedReferenceScanner) : NamedReferenceScanner :=
  mkScanner (Value scanner) (-1).

(* ------------------------------------------------------------------ *)
(** ** Go library functions used by the escaper *)

(** [strings.IndexRune(s, r)] for a rune [r] below [utf8.RuneSelf]: the
    index of the first byte equal to [r], or [-1]. *)
Fixpoint indexFrom (s : text) (r : ascii) (i : Z) : Z :=
  match s with
  | [] => -1
  | c :: s' => if Ascii.eqb c r then i else indexFrom s' r (i + 1)
  end.

Definition IndexRune (s : text) (r : ascii) : Z := indexFrom s r 0.

(** [strings.Replace(s, old, new, -1)] and [bytes.Replace] for a
    one-byte [old]: every occurrence of the byte is replaced. *)
Definition Replace (s : text) (old : ascii) (new : text) : text :=
  flat_map (fun c => if Ascii.eqb c old then new else [c]) s.

(** [make([]byte, n)]: [n] zero bytes. *)
Definition make (n : Z) : text := repeat zero (Z.to_nat n).

(** [copy(b[dest:], src)]: overwrites [b] from [dest] on with as many
    bytes of [src] as fit and returns the buffer and the number of bytes
    copied; slicing [b[dest:]] panics unless [0 <= dest <= len(b)]. *)
Definition copy (b : text) (dest : Z) (src : text) : outcome (text * Z) :=
  if (0 <=? dest) && (dest <=? len b) then
    let n := Z.min (len b - dest) (len src) in
    Ret (firstn (Z.to_nat dest) b ++ firstn (Z.to_nat n) src
           ++ skipn (Z.to_nat (dest + n)) b, n)
  else Panic.

(** Common HTML entities (htmlescaper.go). *)
Definition htmlQuot : text := txt "&#34;".
Definition htmlAmp : text := txt "&amp;".

(** Step budget for the [for { ... scanner.Next() ... }] loops on [val]. *)
Definition budget (val : text) : nat := S (List.length val).

(* ------------------------------------------------------------------ *)
(** ** Detection and escaping, over a Reference Name Table *)

Section Engine.

(** The Reference Name Table lives in a file that is not part of the
    sources at hand; its membership test is a parameter. *)
Variable IsCharacterReferenceName : text -> bool.

(** The loop of [HasAmbiguousAmpersand]. *)
Fixpoint hasLoop (fuel : nat) (scanner : NamedReferenceScanner) : outcome bool :=
  match fuel with
  | O => OutOfFuel
  | S fuel' =>
      '(name, idx, scanner') <- Next scanner ;;
      if idx =? -1 then Ret false
      else if negb (IsCharacterReferenceName name) then Ret true
      else hasLoop fuel' scanner'
  end.

Definition HasAmbiguousAmpersand (val : text) : outcome bool :=
  hasLoop (budget val) (mkScanner val (-1)).

(** First loop of [escapeAmbiguousAmpersandsBuffer]: count the ambiguous
    ampersands. *)
Fixpoint countLoop (fuel : nat) (scanner : NamedReferenceScanner) (count : Z)
  : outcome (Z * NamedReferenceScanner) :=
  match fuel with
  | O => OutOfFuel
  | S fuel' =>
      '(name, index, scanner') <- Next scanner ;;
      if index =? -1 then Ret (count, scanner')
      else if negb (IsCharacterReferenceName name)
           then countLoop fuel' scanner' (count + 1)
           else countLoop fuel' scanner' count
  end.

(** Second loop of [escapeAmbiguousAmpersandsBuffer]: copy [val] into [b],
    writing [htmlAmp] in place of each ambiguous ampersand. *)
Fixpoint copyLoop (fuel : nat) (val : text) (scanner : NamedReferenceScanner)
    (b : text) (dest src : Z) : outcome text :=
  match fuel with
  | O => OutOfFuel
  | S fuel' =>
      '(name, index, scanner') <- Next scanner ;;
      if index =? -1 then
        tail <- slice val src (len val) ;;
        '(b', _) <- copy b dest tail ;;
        Ret b'
      else if negb (IsCharacterReferenceName name) then
        seg <- slice val src index ;;
        '(b1, n1) <- copy b dest seg ;;
        let dest1 := dest + n1 in
        '(b2, n2) <- copy b1 dest1 htmlAmp ;;
        let dest2 := dest1 + n2 in
        copyLoop fuel' val scanner' b2 dest2 (index + 1)
      else copyLoop fuel' val scanner' b dest src
  end.

(** [escapeAmbiguousAmpersandsBuffer]; [None] is the [nil] slice.  The
    integers involved are bounded by [5 * len(val)], so no wrap-around of
    Go's [int] is written out. *)
Definition escapeAmbiguousAmpersandsBuffer (val : text) : outcome (option text) :=
  let scanner := mkScanner val (-1) in
  '(count, scanner) <- countLoop (budget val) scanner 0 ;;
  let scanner := Reset scanner in
  if count =? 0 then Ret None
  else
    let finalLength := len val - count + count * len htmlAmp in
    let b := make finalLength in
    b <- copyLoop (budget val) val scanner b 0 0 ;;
    Ret (Some b).

Definition EscapeAmbiguousAmpersands (val : text) : outcome text :=
  let length := len val in
  if length <? 3 then Ret val
  else
    let ampIdx := IndexRune val UnicodeAmpersand in
    if (ampIdx =? -1) || (ampIdx >=? length - 2) then Ret val
    else
      b <- escapeAmbiguousAmpersandsBuffer val ;;
      match b with
      | Some b => Ret b
      | None => Ret val
      end.

Definition EscapeAttributeValueDoubleQuoted (val : text) : outcome text :=
  let idxAmp := IndexRune val UnicodeAmpersand in
  let idxQuo := IndexRune val UnicodeQuoteMark in
  if (idxAmp =? -1) && (idxQuo =? -1) then Ret val
  else
    let idxSemi := IndexRune val UnicodeSemicolon in
    b <- (if negb (idxAmp =? -1) && (idxAmp <? idxSemi)
          then escapeAmbiguousAmpersandsBuffer val
          else Ret None) ;;
    if negb (idxQuo =? -1) then
      match b with
      | None => Ret (Replace val UnicodeQuoteMark htmlQuot)
      | Some b => Ret (Replace b UnicodeQuoteMark htmlQuot)
      end
    else
      match b with
      | None => Ret val
      | Some b => Ret b
      end.

End Engine.

(** A small table for running the functions on concrete inputs. *)
Definition text_eqb (a b : text) : bool :=
  String.eqb (string_of_list_ascii a) (string_of_list_ascii b).

Definition sampleTable (name : text) : bool :=
  existsb (text_eqb name) [txt "amp"; txt "lt"; txt "gt"; txt "nbsp"; txt "AMP"].

(* ------------------------------------------------------------------ *)
(** ** Ranging over a string (Go language semantics)

    [for i, char := range val] yields, for each UTF-8 sequence of [val],
    the byte index where it starts and the code point it encodes.  A byte
    that does not start a well-formed sequence yields [RuneError] and is
    one byte wide. *)

Definition RuneError : Z := 65533.   (* U+FFFD *)

Definition continuation (c : Z) : bool := (128 <=? c) && (c <=? 191).

Fixpoint rangeString (s : text) (i : Z) : list (Z * Z) :=
  match s with
  | [] => []
  | b0 :: s1 =>
      let c0 := code b0 in
      let invalid := (i, RuneError) :: rangeString s1 (i + 1) in
      if c0 <? 128 then (i, c0) :: rangeString s1 (i + 1)
      else if (c0 <? 194) || (244 <? c0) then invalid
      else
        match s1 with
        | [] => invalid
        | b1 :: s2 =>
            let c1 := code b1 in
            let lo := if c0 =? 224 then 160 else if c0 =? 240 then 144 else 128 in
            let hi := if c0 =? 237 then 159 else if c0 =? 244 then 143 else 191 in
            if (c1 <? lo) || (hi <? c1) then invalid
            else if c0 <? 224 then
              (i, Z.lor (Z.shiftl (Z.land c0 31) 6) (Z.land c1 63))
                :: rangeString s2 (i + 2)
            else
              match s2 with
              | [] => invalid
              | b2 :: s3 =>
                  let c2 := code b2 in
                  if negb (continuation c2) then invalid
                  else if c0 <? 240 then
                    (i, Z.lor (Z.lor (Z.shiftl (Z.land c0 15) 12)
                                     (Z.shiftl (Z.land c1 63) 6))
                              (Z.land c2 63))
                      :: rangeString s3 (i + 3)
                  else
                    match s3 with
                    | [] => invalid
                    | b3 :: s4 =>
                        let c3 := code b3 in
                        if negb (continuation c3) then invalid
                        else
                          (i, Z.lor (Z.lor (Z.lor (Z.shiftl (Z.land c0 7) 18)
                                                  (Z.shiftl (Z.land c1 63) 12))
                                           (Z.shiftl (Z.land c2 63) 6))
                                    (Z.land c3 63))
                            :: rangeString s4 (i + 4)
                    end
              end
        end
  end.

(* ------------------------------------------------------------------ *)
(** ** The CSS3 identifier validator *)

(** The local variables of [IsValidCss3Identifier] that live across
    iterations ([second] is only used inside one iteration). *)
Record lexer : Type := mkLexer {
  first : Z;
  wasSlash : bool;
  inEscape : bool;
  hexCount : Z
}.

Definition lexer0 : lexer := mkLexer 0 false false 0.

Definition between (lo hi : ascii) (char : Z) : bool :=
  (code lo <=? char) && (char <=? code hi).

Definition isSpaceRune (char : Z) : bool :=
  (char =? 32) || (char =? 9) || (char =? 10) || (char =? 13) || (char =? 12).

(** One iteration of the loop; [None] is [return false]. *)
Definition cssBody (i char : Z) (st : lexer) : option lexer :=
  let first := if i =? 0 then char else first st in
  if (i =? 0) && between "0" "9" first then None
  else if (i =? 1) && (first =? code "-")
          && ((char =? code "-") || between "0" "9" char) then None
  else
    let inEscape := if hexCount st >? 6 then false else inEscape st in
    let wasSlash := wasSlash st in
    let hexCount := hexCount st in
    if char >=? 160 then Some (mkLexer first false false hexCount)
    else if (char =? code "-") || (char =? code "_") then
      Some (mkLexer first false false hexCount)
    else if between "a" "z" char then
      if char >? code "f" then Some (mkLexer first false false hexCount)
      else Some (mkLexer first false inEscape (hexCount + 1))
    else if between "A" "Z" char then
      if char >? code "F" then Some (mkLexer first false false hexCount)
      else Some (mkLexer first false inEscape (hexCount + 1))
    else if between "0" "9" char then
      Some (mkLexer first false inEscape (hexCount + 1))
    else if char =? code "\" then Some (mkLexer first true true 0)
    else if inEscape && isSpaceRune char then
      Some (mkLexer first false false hexCount)
    else if wasSlash then Some (mkLexer first false false hexCount)
    else None.

(** The [for i, char := range val] loop; falling out of it is
    [return true]. *)
Fixpoint cssLoop (runes : list (Z * Z)) (st : lexer) : bool :=
  match runes with
  | [] => true
  | (i, char) :: runes' =>
      match cssBody i char st with
      | None => false
      | Some st' => cssLoop runes' st'
      end
  end.

Definition IsValidCss3Identifier (val : text) : bool :=
  if len val =? 0 then false
  else cssLoop (rangeString val 0) lexer0.

(** [IsValidCss3IdValue]: a number sign followed by an identifier. *)
Definition IsValidCss3IdValue (val : text) : bool :=
  if len val <? 2 then false
  else
    match val with
    | c :: rest => Ascii.eqb c "#"%char && IsValidCss3Identifier rest
    | [] => false
    end.

(* ------------------------------------------------------------------ *)
(** ** What the scanner looks for

    A candidate named reference: an ampersand at index [i], then the
    non-empty alphanumeric [name], then a semicolon. *)

Definition candidate (val : text) (i : Z) (name : text) : Prop :=
  0 <= i /\ name <> [] /\ forallb isAlnum name = true /\
  exists post,
    skipn (Z.to_nat i) val = UnicodeAmpersand :: name ++ UnicodeSemicolon :: post.

(** The longest alphanumeric run at the head of [rest], when a semicolon
    ends it. *)
Fixpoint parseName (rest : text) : option text :=
  match rest with
  | [] => None
  | c :: rest' =>
      if Ascii.eqb c UnicodeSemicolon then Some []
      else if negb (isAlnum c) then None
      else option_map (cons c) (parseName rest')
  end.

(** All candidates of [s], whose first byte has index [i], in order. *)
Fixpoint refs (s : text) (i : Z) : list (text * Z) :=
  match s with
  | [] => []
  | c :: s' =>
      if Ascii.eqb c UnicodeAmpersand then
        match parseName s' with
        | Some (n :: ame) => (n :: ame, i) :: refs s' (i + 1)
        | _ => refs s' (i + 1)
        end
      else refs s' (i + 1)
  end.

(** The candidates that remain after a scanner stopped at [last]. *)
Definition refsFrom (val : text) (last : Z) : list (text * Z) :=
  refs (skipn (Z.to_nat (last + 1)) val) (last + 1).

(* ------------------------------------------------------------------ *)
(** ** What detection and escaping are meant to compute *)

Section Meaning.

Variable IsCharacterReferenceName : text -> bool.

(** The matches that successive calls of [Next] return, until it returns
    [-1]. *)
Fixpoint scanAll (fuel : nat) (scanner : NamedReferenceScanner)
  : outcome (list (text * Z)) :=
  match fuel with
  | O => OutOfFuel
  | S fuel' =>
      '(name, idx, scanner') <- Next scanner ;;
      if idx =? -1 then Ret []
      else ms <- scanAll fuel' scanner' ;; Ret ((name, idx) :: ms)
  end.

(** A match is ambiguous when its name is not in the table. *)
Definition ambiguous (m : text * Z) : bool :=
  negb (IsCharacterReferenceName (fst m)).

Definition ambiguousIndexes (ms : list (text * Z)) : list Z :=
  map snd (filter ambiguous ms).

(** [s], whose first byte has index [i], with the byte at each index of
    [idxs] replaced by [htmlAmp] and every other byte kept. *)
Fixpoint substitute (s : text) (i : Z) (idxs : list Z) : text :=
  match s with
  | [] => []
  | c :: s' =>
      (if existsb (Z.eqb i) idxs then htmlAmp else [c])
        ++ substitute s' (i + 1) idxs
  end.

(** The same text, by recursion on the input: an ampersand is replaced
    when a non-empty name outside the table and a semicolon follow it. *)
Fixpoint escaped (s : text) : text :=
  match s with
  | [] => []
  | c :: s' =>
      if Ascii.eqb c UnicodeAmpersand then
        match parseName s' with
        | Some (n :: ame) =>
            if negb (IsCharacterReferenceName (n :: ame))
            then htmlAmp ++ escaped s'
            else c :: escaped s'
        | _ => c :: escaped s'
        end
      else c :: escaped s'
  end.

(** What the copy loop writes from [val[src:]] on, given the matches [ms]
    that are still to come. *)
Fixpoint assemble (val : text) (src : Z) (ms : list (text * Z)) : text :=
  match ms with
  | [] => skipn (Z.to_nat src) val
  | (name, a) :: ms' =>
      if negb (IsCharacterReferenceName name)
      then firstn (Z.to_nat (a - src)) (skipn (Z.to_nat src) val)
             ++ htmlAmp ++ assemble val (a + 1) ms'
      else assemble val src ms'
  end.

End Meaning.

(** Matches in increasing order of index, within [lo, hi). *)
Fixpoint ascending (lo hi : Z) (ms : list (text * Z)) : Prop :=
  match ms with
  | [] => True
  | (_, a) :: ms' => lo <= a < hi /\ ascending (a + 1) hi ms'
  end.

(* ------------------------------------------------------------------ *)
(** ** Code points of a text and runs of the validator *)

(** The first code point of [s] and the number of bytes it takes
    ([utf8.DecodeRuneInString]). *)
Definition decodeRune (s : text) : Z * nat :=
  match s with
  | [] => (RuneError, 0%nat)
  | b0 :: s1 =>
      let c0 := code b0 in
      if c0 <? 128 then (c0, 1%nat)
      else if (c0 <? 194) || (244 <? c0) then (RuneError, 1%nat)
      else
        match s1 with
        | [] => (RuneError, 1%nat)
        | b1 :: s2 =>
            let c1 := code b1 in
            let lo := if c0 =? 224 then 160 else if c0 =? 240 then 144 else 128 in
            let hi := if c0 =? 237 then 159 else if c0 =? 244 then 143 else 191 in
            if (c1 <? lo) || (hi <? c1) then (RuneError, 1%nat)
            else if c0 <? 224 then
              (Z.lor (Z.shiftl (Z.land c0 31) 6) (Z.land c1 63), 2%nat)
            else
              match s2 with
              | [] => (RuneError, 1%nat)
              | b2 :: s3 =>
                  let c2 := code b2 in
                  if negb (continuation c2) then (RuneError, 1%nat)
                  else if c0 <? 240 then
                    (Z.lor (Z.lor (Z.shiftl (Z.land c0 15) 12)
                                  (Z.shiftl (Z.land c1 63) 6))
                           (Z.land c2 63), 3%nat)
                  else
                    match s3 with
                    | [] => (RuneError, 1%nat)
                    | b3 :: _ =>
                        let c3 := code b3 in
                        if negb (continuation c3) then (RuneError, 1%nat)
                        else
                          (Z.lor (Z.lor (Z.lor (Z.shiftl (Z.land c0 7) 18)
                                               (Z.shiftl (Z.land c1 63) 12))
                                        (Z.shiftl (Z.land c2 63) 6))
                                 (Z.land c3 63), 4%nat)
                    end
              end
        end
  end.

(** The code points that the loop of the validator sees. *)
Definition codePoints (val : text) : list Z := map snd (rangeString val 0).

(** The state of the validator after the iterations over [runes]; [None]
    when one of them returns [false]. *)
Fixpoint cssRun (runes : list (Z * Z)) (st : lexer) : option lexer :=
  match runes with
  | [] => Some st
  | (i, char) :: runes' =>
      match cssBody i char st with
      | None => None
      | Some st' => cssRun runes' st'
      end
  end.

(** Code points that an identifier may contain without an escape. *)
Definition plainRune (char : Z) : bool :=
  (char >=? 160) || (char =? code "-") || (char =? code "_")
  || between "a" "z" char || between "A" "Z" char || between "0" "9" char.


Definition backslash : Z := code "\".



(* ------------------------------------------------------------------ *)
(** ** Attribute names, attribute values, tag names and ID values *)

(** The text made of the given byte values. *)
Definition chars (codes : list nat) : text := map ascii_of_nat codes.

Definition UnicodeApostrophe : ascii := "'"%char.

(** Space, tab, linefeed, formfeed and carriage return. *)
Definition SpaceCharacters : text := chars [32; 9; 10; 12; 13]%nat.

(** NUL, BEL, BS, VT, ESC and DEL. *)
Definition ControlCharacters : text := chars [0; 7; 8; 11; 27; 127]%nat.

(** Quotation mark, apostrophe, [>], [/] and [=]. *)
Definition InvalidAttributeNameCharacters : text :=
  chars [34; 39; 62; 47; 61]%nat.

(** Quotation mark, apostrophe, [<], [=], [>] and the grave accent. *)
Definition InvalidAttributeValueUnquotedCharacters : text :=
  chars [34; 39; 60; 61; 62; 96]%nat.

(** The index of the first code point of [runes] that satisfies [f], or
    [-1]. *)
Fixpoint indexWhere (f : Z -> bool) (runes : list (Z * Z)) : Z :=
  match runes with
  | [] => -1
  | (i, c) :: runes' => if f c then i else indexWhere f runes'
  end.

(** [strings.IndexFunc(s, f)] *)
Definition IndexFunc (s : text) (f : Z -> bool) : Z :=
  indexWhere f (rangeString s 0).

(** [strings.IndexAny(s, chars)]: the first code point of [s] that is one
    of the code points of [chars]. *)
Definition IndexAny (s chars : text) : Z :=
  if 0 <? len chars then
    indexWhere (fun c => existsb (fun m => c =? snd m) (rangeString chars 0))
               (rangeString s 0)
  else -1.

(** [strings.ContainsAny(s, chars)] *)
Definition ContainsAny (s chars : text) : bool := IndexAny s chars >=? 0.

(** [unicode.Noncharacter_Code_Point]: U+FDD0..U+FDEF and the last two
    code points of each of the 17 planes. *)
Definition Noncharacter_Code_Point : list (Z * Z) :=
  [(0xfdd0, 0xfdef); (0xfffe, 0xffff);
   (0x1fffe, 0x1ffff); (0x2fffe, 0x2ffff); (0x3fffe, 0x3ffff);
   (0x4fffe, 0x4ffff); (0x5fffe, 0x5ffff); (0x6fffe, 0x6ffff);
   (0x7fffe, 0x7ffff); (0x8fffe, 0x8ffff); (0x9fffe, 0x9ffff);
   (0xafffe, 0xaffff); (0xbfffe, 0xbffff); (0xcfffe, 0xcffff);
   (0xdfffe, 0xdffff); (0xefffe, 0xeffff); (0xffffe, 0xfffff);
   (0x10fffe, 0x10ffff)].

(** [unicode.Is(table, r)] for a table of ranges of stride 1. *)
Definition unicodeIs (table : list (Z * Z)) (r : Z) : bool :=
  existsb (fun range => (fst range <=? r) && (r <=? snd range)) table.

Definition isUnicodeNonCharacter (char : Z) : bool :=
  unicodeIs Noncharacter_Code_Point char.

Definition IsValidAttributeName (name : text) : bool :=
  let invalid :=
    (len name =? 0)
    || ContainsAny name SpaceCharacters
    || ContainsAny name ControlCharacters
    || ContainsAny name InvalidAttributeNameCharacters
    || (IndexFunc name isUnicodeNonCharacter >? -1) in
  negb invalid.

Section AttributeValues.

Variable IsCharacterReferenceName : text -> bool.

Definition IsValidAttributeValue (val : text) : outcome bool :=
  b <- HasAmbiguousAmpersand IsCharacterReferenceName val ;;
  Ret (negb b).

Definition IsValidAttributeValueUnquoted (val : text) : outcome bool :=
  if len val =? 0 then Ret false
  else if ContainsAny val SpaceCharacters then Ret false
  else if ContainsAny val InvalidAttributeValueUnquotedCharacters then Ret false
  else IsValidAttributeValue val.

Definition IsValidAttributeValueSingleQuoted (val : text) : outcome bool :=
  if IndexRune val UnicodeApostrophe >? -1 then Ret false
  else IsValidAttributeValue val.

Definition IsValidAttributeValueDoubleQuoted (val : text) : outcome bool :=
  if IndexRune val UnicodeQuoteMark >? -1 then Ret false
  else IsValidAttributeValue val.

End AttributeValues.

(** The loop of [IsValidHTMLTagName]. *)
Fixpoint tagNameLoop (runes : list (Z * Z)) : bool :=
  match runes with
  | [] => true
  | (_, c) :: runes' =>
      let isNum := between "0" "9" c in
      let isLower := between "a" "z" c in
      let isUpper := between "A" "Z" c in
      if negb (isNum || isLower || isUpper) then false
      else tagNameLoop runes'
  end.

Definition IsValidHTMLTagName (name : text) : bool :=
  tagNameLoop (rangeString name 0).

(** The loop of [IsValidHtml4IdValue]. *)
Fixpoint html4Loop (runes : list (Z * Z)) : bool :=
  match runes with
  | [] => true
  | (_, cur) :: runes' =>
      if negb (between "a" "z" cur) && negb (between "A" "Z" cur)
         && negb (between "0" "9" cur)
         && negb (cur =? code ":") && negb (cur =? code "_")
         && negb (cur =? code "-") && negb (cur =? code ".")
      then false
      else html4Loop runes'
  end.

Definition IsValidHtml4IdValue (val : text) : bool :=
  let length := len val in
  if length =? 0 then false
  else
    match val with
    | [] => false
    | first :: _ =>
        let isLower := between "a" "z" (code first) in
        let isUpper := between "A" "Z" (code first) in
        if negb isLower && negb isUpper then false
        else html4Loop (rangeString val 0)
    end.

Definition IsValidHtml5IdValue (val : text) : bool :=
  let invalid := (len val =? 0) || ContainsAny val SpaceCharacters in
  negb invalid.

(** Every candidate of [val] has its name in the table
    [IsCharacterReferenceName]. *)
Definition unambiguous (IsCharacterReferenceName : text -> bool) (val : text)
  : Prop :=
  forall i name, candidate val i name -> IsCharacterReferenceName name = true.

(** ASCII letters, and the bytes that [IsValidHtml4IdValue] lets follow. *)
Definition isLetter (b : ascii) : bool :=
  between "a" "z" (code b) || between "A" "Z" (code b).

Definition isNameByte (b : ascii) : bool :=
  isAlnum b || existsb (Ascii.eqb b) (txt ":_-.").

(** The bytes below 128 that are none of the characters that the
    validators of attribute names and attribute values look for. *)
Definition safeByte (b : ascii) : bool :=
  (code b <? 128)
  && negb (existsb (Ascii.eqb b)
             (SpaceCharacters ++ ControlCharacters
                ++ InvalidAttributeNameCharacters
                ++ InvalidAttributeValueUnquotedCharacters
                ++ [UnicodeAmpersand])).

(* ------------------------------------------------------------------ *)
(** * Properties *)

(** ** The functions on the cases of the repository's test tables *)

Example Next_test_table :
  Next (mkScanner (txt "value") (-1)) = Ret ([], -1, mkScanner (txt "value") 5) /\
  Next (mkScanner (txt "&value;") (-1))
  = Ret (txt "value", 0, mkScanner (txt "&value;") 6) /\
  Next (mkScanner (txt "&value;") 6) = Ret ([], -1, mkScanner (txt "&value;") 7) /\
  Next (mkScanner (txt "a &value;") (-1))
  = Ret (txt "value", 2, mkScanner (txt "a &value;") 8) /\
  Next (mkScanner (txt "a &value;") 9) = Ret ([], -1, mkScanner (txt "a &value;") 9) /\
  Next (mkScanner (txt "a &value;") 3) = Ret ([], -1, mkScanner (txt "a &value;") 9) /\
  Next (mkScanner (txt ";&") (-1)) = Ret ([], -1, mkScanner (txt ";&") 2) /\
  Next (mkScanner (txt "a &;") (-1)) = Ret ([], -1, mkScanner (txt "a &;") 4) /\
  Next (mkScanner (txt "&not ⌘ this;") (-1))
  = Ret ([], -1, mkScanner (txt "&not ⌘ this;") 14) /\
  Next (mkScanner (txt "&but ⌘ &this;") (-1))
  = Ret (txt "this", 9, mkScanner (txt "&but ⌘ &this;") 14) /\
  Next (mkScanner (txt "&but; &this;") (-1))
  = Ret (txt "but", 0, mkScanner (txt "&but; &this;") 4) /\
  Next (mkScanner (txt "&but; &this;") 4)
  = Ret (txt "this", 6, mkScanner (txt "&but; &this;") 11).
Proof. repeat split; reflexivity. Qed.

Example HasAmbiguousAmpersand_test_table :
  map (fun s => HasAmbiguousAmpersand sampleTable (txt s))
      ["This &could; be"; "&amp; &this;"; "&a;"; "&9;"; "what; &about; this;&?";
       "&this &is; also;"; "⌘ &poi; ⌘"]%string
  = repeat (Ret true) 7 /\
  map (fun s => HasAmbiguousAmpersand sampleTable (txt s))
      [""; "this is not ambiguous"; "this & ain't ambiguous"; "&#this";
       "neither &; this"; "what; about& this?"; "some; &and ;";
       "This &amp; that."; "Put &lt;input/>"; "this & that;.";
       "This & that; &amp; others"; "&this &amp; that;"; "&⌘;"; "&�;"]%string
  = repeat (Ret false) 14.
Proof. split; vm_compute; reflexivity. Qed.

Example EscapeAmbiguousAmpersands_test_table :
  map (fun s => EscapeAmbiguousAmpersands sampleTable (txt s))
      [""; "&☁;"; "test"; "none&;"; "&amp;"; "this &⌘&that;.";
       "&this;&lt;&this;&that;"; "a &tuesday;"; "this &could; be &ambigous;.";
       "no &amp; here"; "test &a;&b;&c;&d;&e;&f;&g;&h; ⌘";
       "Who &writes; like this?"]%string
  = map (fun s => Ret (txt s))
      [""; "&☁;"; "test"; "none&;"; "&amp;"; "this &⌘&amp;that;.";
       "&amp;this;&lt;&amp;this;&amp;that;"; "a &amp;tuesday;";
       "this &amp;could; be &amp;ambigous;.";
       "no &amp; here";
       "test &amp;a;&amp;b;&amp;c;&amp;d;&amp;e;&amp;f;&amp;g;&amp;h; ⌘";
       "Who &amp;writes; like this?"]%string.
Proof. vm_compute. reflexivity. Qed.

Example EscapeAttributeValueDoubleQuoted_test_table :
  map (fun s => EscapeAttributeValueDoubleQuoted sampleTable (txt s))
      [""; "a"; "ok fine"; "'fine'"; "none&;"; "&dan;"]%string
  = map (fun s => Ret (txt s))
      [""; "a"; "ok fine"; "'fine'"; "none&;"; "&amp;dan;"]%string /\
  EscapeAttributeValueDoubleQuoted sampleTable
    (UnicodeQuoteMark :: txt "⌘" ++ [UnicodeQuoteMark])
  = Ret (txt "&#34;⌘&#34;").
Proof. split; vm_compute; reflexivity. Qed.

Example IsValidCss3Identifier_test_table :
  map (fun s => IsValidCss3Identifier (txt s))
      [""; "1a"; "--lua"; "-1a"; "a#"; "a{b}"; "a|b"; "!"; "a b"; "2"]%string
  = repeat false 10 /\
  map (fun s => IsValidCss3Identifier (txt s))
      ["\32"; "abc123DEF"; "¡"; "©2005"; "a☁b"; "a-b"; "a_b"; "B\&W\?";
       "B\26 W\3F"; "a\ b"; "te\st"; "hullo"]%string
  = repeat true 12 /\
  IsValidCss3IdValue (txt "") = false /\
  IsValidCss3IdValue (txt "a") = false /\
  IsValidCss3IdValue (txt "#a") = true.
Proof. repeat split; vm_compute; reflexivity. Qed.

(** ** Lists and lengths *)

Lemma len_nil : len [] = 0.
Proof. reflexivity. Qed.

Lemma len_cons (c : ascii) (s : text) : len (c :: s) = len s + 1.
Proof. unfold len. cbn [List.length]. lia. Qed.

Lemma len_app (s t : text) : len (s ++ t) = len s + len t.
Proof. unfold len. rewrite length_app. lia. Qed.

Lemma len_nonneg (s : text) : 0 <= len s.
Proof. unfold len. lia. Qed.

Lemma len_firstn (n : nat) (s : text) : len (firstn n s) = Z.min (Z.of_nat n) (len s).
Proof. unfold len. rewrite length_firstn. lia. Qed.

Lemma len_skipn (n : nat) (s : text) : len (skipn n s) = Z.max 0 (len s - Z.of_nat n).
Proof. unfold len. rewrite length_skipn. lia. Qed.

Lemma skipn_plus {A} (n m : nat) (l : list A) : skipn n (skipn m l) = skipn (m + n) l.
Proof.
  revert l. induction m as [|m IH]; intros l; [reflexivity|].
  destruct l as [|x l]; [now rewrite !skipn_nil|]. cbn. apply IH.
Qed.

Lemma skipn_app_exact {A} (l r : list A) n : n = List.length l -> skipn n (l ++ r) = r.
Proof.
  intros ->. induction l as [|x l IH]; [reflexivity|]. cbn. exact IH.
Qed.

Lemma firstn_app_exact {A} (l r : list A) n : n = List.length l -> firstn n (l ++ r) = l.
Proof.
  intros ->. induction l as [|x l IH]; [reflexivity|]. cbn. now rewrite IH.
Qed.

(** Below [-1] the first read [Value[i]] is out of range. *)
Lemma Next_negative scanner : LastIndex scanner < -1 -> Next scanner = Panic.
Proof.
  intros H. unfold Next. pose proof (len_nonneg (Value scanner)).
  replace (LastIndex scanner + 1 <? 0) with true by (symmetry; apply Z.ltb_lt; lia).
  now replace (LastIndex scanner + 1 <? len (Value scanner)) with true
    by (symmetry; apply Z.ltb_lt; lia).
Qed.

(** ** Characters *)

Lemma isAlnum_not_semicolon c : isAlnum c = true -> Ascii.eqb c UnicodeSemicolon = false.
Proof.
  intros H. destruct (Ascii.eqb_spec c UnicodeSemicolon) as [->|]; [discriminate H|reflexivity].
Qed.

Lemma isAlnum_not_ampersand c : isAlnum c = true -> Ascii.eqb c UnicodeAmpersand = false.
Proof.
  intros H. destruct (Ascii.eqb_spec c UnicodeAmpersand) as [->|]; [discriminate H|reflexivity].
Qed.

Lemma isAlnum_not_quote c : isAlnum c = true -> Ascii.eqb c UnicodeQuoteMark = false.
Proof.
  intros H. destruct (Ascii.eqb_spec c UnicodeQuoteMark) as [->|]; [discriminate H|reflexivity].
Qed.

(** ** The inner loop *)

Lemma parseName_Some rest name :
  parseName rest = Some name ->
  forallb isAlnum name = true /\ exists post, rest = name ++ UnicodeSemicolon :: post.
Proof.
  revert name. induction rest as [|c rest IH]; intros name H; [discriminate|].
  cbn in H. destruct (Ascii.eqb_spec c UnicodeSemicolon) as [->|Hc].
  - injection H as <-. split; [reflexivity|]. now exists rest.
  - destruct (isAlnum c) eqn:Ha; [|discriminate]. cbn in H.
    destruct (parseName rest) as [n|]; [|discriminate].
    injection H as <-. destruct (IH n eq_refl) as [Hn [post ->]].
    split; [cbn; now rewrite Ha|]. now exists post.
Qed.

Lemma parseName_complete name post :
  forallb isAlnum name = true ->
  parseName (name ++ UnicodeSemicolon :: post) = Some name.
Proof.
  induction name as [|c name IH]; intros H; [reflexivity|].
  cbn in H. apply andb_prop in H as [Hc Hn].
  cbn. rewrite (isAlnum_not_semicolon _ Hc), Hc. cbn. now rewrite IH.
Qed.

Lemma nameLoop_parseName rest j :
  nameLoop rest j = option_map (fun name => j + len name) (parseName rest).
Proof.
  revert j. induction rest as [|c rest IH]; intros j; [reflexivity|].
  cbn [nameLoop parseName]. destruct (Ascii.eqb c UnicodeSemicolon).
  - cbn [option_map]. f_equal. rewrite len_nil. lia.
  - destruct (isAlnum c); cbn [negb]; [|reflexivity].
    rewrite IH. destruct (parseName rest) as [n|]; cbn [option_map]; [|reflexivity].
    f_equal. rewrite len_cons. lia.
Qed.

(** ** The outer loop *)

Lemma ampLoop_cons c rest i :
  ampLoop (c :: rest) i =
  if Ascii.eqb c UnicodeAmpersand then
    match parseName rest with
    | Some (n :: ame) => Some (i, i + 1 + len (n :: ame))
    | _ => ampLoop rest (i + 1)
    end
  else ampLoop rest (i + 1).
Proof.
  cbn [ampLoop]. destruct (Ascii.eqb c UnicodeAmpersand); [|reflexivity].
  destruct rest as [|d rest]; [reflexivity|].
  rewrite nameLoop_parseName.
  cbn [parseName]. destruct (Ascii.eqb d UnicodeSemicolon); [reflexivity|].
  destruct (isAlnum d); cbn [negb option_map]; [|reflexivity].
  destruct (parseName rest) as [n|]; reflexivity.
Qed.

Lemma ampLoop_refs rest i :
  ampLoop rest i =
  match refs rest i with
  | [] => None
  | (name, a) :: _ => Some (a, a + 1 + len name)
  end.
Proof.
  revert i. induction rest as [|c rest IH]; intros i; [reflexivity|].
  rewrite ampLoop_cons. cbn [refs].
  destruct (Ascii.eqb c UnicodeAmpersand); [|apply IH].
  destruct (parseName rest) as [[|n ame]|]; try apply IH. reflexivity.
Qed.

(** ** The list of candidates *)

Lemma refs_sound rest i name a :
  In (name, a) (refs rest i) ->
  exists k : nat,
    a = i + Z.of_nat k /\ name <> [] /\ forallb isAlnum name = true /\
    exists post, skipn k rest = UnicodeAmpersand :: name ++ UnicodeSemicolon :: post.
Proof.
  revert i. induction rest as [|c rest IH]; intros i H; [contradiction|].
  assert (Hrec : In (name, a) (refs rest (i + 1)) ->
                 exists k : nat,
                   a = i + Z.of_nat k /\ name <> [] /\ forallb isAlnum name = true /\
                   exists post, skipn k (c :: rest)
                                = UnicodeAmpersand :: name ++ UnicodeSemicolon :: post).
  { intros Hin. destruct (IH _ Hin) as (k & -> & Hne & Hal & post & Hk).
    exists (S k). repeat split; [lia|assumption|assumption|]. now exists post. }
  cbn [refs] in H.
  destruct (Ascii.eqb_spec c UnicodeAmpersand) as [->|Hc]; [|auto].
  destruct (parseName rest) as [[|n ame]|] eqn:Hp; auto.
  destruct H as [H|H]; [|auto].
  injection H as <- <-. apply parseName_Some in Hp as [Hal [post ->]].
  exists 0%nat. repeat split; [lia|discriminate|assumption|]. now exists post.
Qed.

Lemma refs_complete rest i name (k : nat) post :
  name <> [] -> forallb isAlnum name = true ->
  skipn k rest = UnicodeAmpersand :: name ++ UnicodeSemicolon :: post ->
  In (name, i + Z.of_nat k) (refs rest i).
Proof.
  intros Hne Hal. revert rest i.
  induction k as [|k IH]; intros rest i Hk.
  - cbn in Hk. subst rest. cbn [refs]. rewrite Ascii.eqb_refl.
    rewrite (parseName_complete _ _ Hal).
    destruct name as [|n ame]; [contradiction|]. left. f_equal. lia.
  - destruct rest as [|c rest]; [discriminate|]. cbn in Hk.
    specialize (IH rest (i + 1) Hk).
    replace (i + Z.of_nat (S k)) with (i + 1 + Z.of_nat k) by lia.
    cbn [refs]. destruct (Ascii.eqb c UnicodeAmpersand); [|assumption].
    destruct (parseName rest) as [[|n ame]|]; try assumption. now right.
Qed.

Lemma refs_lower rest i name a : In (name, a) (refs rest i) -> i <= a.
Proof.
  intros H. destruct (refs_sound _ _ _ _ H) as (k & -> & _). lia.
Qed.

Lemma refs_head_least rest i name a tl :
  refs rest i = (name, a) :: tl ->
  forall name' a', In (name', a') tl -> a < a'.
Proof.
  revert i. induction rest as [|c rest IH]; intros i H; [discriminate|].
  cbn [refs] in H.
  destruct (Ascii.eqb c UnicodeAmpersand); [|eauto].
  destruct (parseName rest) as [[|n ame]|]; eauto.
  injection H as <- <- <-. intros name' a' Hin.
  apply refs_lower in Hin. lia.
Qed.

(** No candidate starts inside a name or at the semicolon that ends it. *)
Lemma refs_skip_name name post i :
  forallb isAlnum name = true ->
  refs (name ++ UnicodeSemicolon :: post) i = refs post (i + len name + 1).
Proof.
  revert i. induction name as [|c name IH]; intros i H.
  - cbn. f_equal. lia.
  - cbn in H. apply andb_prop in H as [Hc Hn].
    cbn [app refs]. rewrite (isAlnum_not_ampersand _ Hc), (IH _ Hn).
    f_equal. rewrite len_cons. lia.
Qed.

Lemma refs_tail rest i name a tl :
  refs rest i = (name, a) :: tl ->
  tl = refs (skipn (Z.to_nat (a + len name + 2 - i)) rest) (a + len name + 2).
Proof.
  revert i. induction rest as [|c rest IH]; intros i H; [discriminate|].
  assert (Hrec : refs rest (i + 1) = (name, a) :: tl ->
    tl = refs (skipn (Z.to_nat (a + len name + 2 - i)) (c :: rest)) (a + len name + 2)).
  { intros Hr. rewrite (IH _ Hr) at 1.
    assert (i + 1 <= a) by (eapply refs_lower; rewrite Hr; now left).
    pose proof (len_nonneg name).
    replace (Z.to_nat (a + len name + 2 - i))
      with (S (Z.to_nat (a + len name + 2 - (i + 1)))) by lia.
    reflexivity. }
  cbn [refs] in H.
  destruct (Ascii.eqb c UnicodeAmpersand); [|auto].
  destruct (parseName rest) as [[|n ame]|] eqn:Hp; auto.
  injection H as <- <- <-. apply parseName_Some in Hp as [Hal [post ->]].
  rewrite (refs_skip_name _ _ _ Hal).
  replace (Z.to_nat (i + len (n :: ame) + 2 - i))
    with (S (List.length (n :: ame) + 1)) by (unfold len; lia).
  cbn [skipn]. rewrite skipn_app.
  replace (List.length (n :: ame) + 1 - List.length (n :: ame))%nat with 1%nat by lia.
  rewrite skipn_all2 by lia. cbn. f_equal. lia.
Qed.

Lemma refsFrom_candidate val last name a :
  -1 <= last ->
  In (name, a) (refsFrom val last) <-> (candidate val a name /\ last < a).
Proof.
  intros Hl. unfold refsFrom, candidate. split.
  - intros H. destruct (refs_sound _ _ _ _ H) as (k & -> & Hne & Hal & post & Hk).
    rewrite skipn_plus in Hk.
    repeat split; try assumption; try lia.
    exists post. rewrite <- Hk. f_equal. lia.
  - intros [(Ha & Hne & Hal & post & Hk) Hlt].
    replace a with (last + 1 + Z.of_nat (Z.to_nat (a - (last + 1)))) by lia.
    apply refs_complete with (post := post); try assumption.
    rewrite skipn_plus. rewrite <- Hk. f_equal. lia.
Qed.

Lemma candidate_bounds val a name :
  candidate val a name -> 0 <= a /\ a + 1 + len name < len val.
Proof.
  intros (Ha & _ & _ & post & Hk). split; [assumption|].
  apply (f_equal len) in Hk.
  rewrite len_skipn, len_cons, len_app, len_cons in Hk.
  pose proof (len_nonneg post). pose proof (len_nonneg name). lia.
Qed.

Lemma candidate_slice val a name :
  candidate val a name -> slice val (a + 1) (a + 1 + len name) = Ret name.
Proof.
  intros Hc. pose proof (candidate_bounds _ _ _ Hc) as [Ha Hb].
  pose proof (len_nonneg name).
  destruct Hc as (_ & _ & _ & post & Hk).
  unfold slice.
  replace ((0 <=? a + 1) && (a + 1 <=? a + 1 + len name)
           && (a + 1 + len name <=? len val)) with true
    by (symmetry; rewrite !andb_true_iff, !Z.leb_le; lia).
  f_equal.
  replace (Z.to_nat (a + 1)) with (Z.to_nat a + 1)%nat by lia.
  rewrite <- skipn_plus, Hk. cbn [skipn].
  apply firstn_app_exact. unfold len. lia.
Qed.

Lemma refsFrom_tail val last name a tl :
  -1 <= last ->
  refsFrom val last = (name, a) :: tl ->
  tl = refsFrom val (a + 1 + len name).
Proof.
  intros Hl H. unfold refsFrom in *.
  assert (last + 1 <= a) by (eapply refs_lower; rewrite H; now left).
  pose proof (len_nonneg name).
  rewrite (refs_tail _ _ _ _ _ H), skipn_plus.
  f_equal; [f_equal|]; lia.
Qed.

Lemma refsFrom_end val last : len val <= last + 1 -> refsFrom val last = [].
Proof.
  intros H. unfold refsFrom. rewrite skipn_all2; [reflexivity|]. unfold len in H. lia.
Qed.

(** [Next] returns the head of the remaining candidates. *)
Lemma Next_refsFrom val last :
  -1 <= last ->
  Next (mkScanner val last) =
  match refsFrom val last with
  | [] => Ret ([], -1, mkScanner val (len val))
  | (name, a) :: _ => Ret (name, a, mkScanner val (a + 1 + len name))
  end.
Proof.
  intros Hl. unfold Next. cbn [Value LastIndex].
  replace (last + 1 <? 0) with false by (symmetry; apply Z.ltb_ge; lia).
  cbn [andb]. rewrite ampLoop_refs. fold (refsFrom val last).
  destruct (refsFrom val last) as [|[name a] tl] eqn:Hr; [reflexivity|].
  assert (Hc : candidate val a name).
  { apply (refsFrom_candidate val last name a Hl). rewrite Hr. now left. }
  rewrite (candidate_slice _ _ _ Hc). reflexivity.
Qed.

(** ** The contract of [Next] and [Reset] *)

Lemma Next_exhausted val last :
  len val <= last + 1 -> -1 <= last ->
  Next (mkScanner val last) = Ret ([], -1, mkScanner val (len val)).
Proof.
  intros H Hl. rewrite (Next_refsFrom _ _ Hl), (refsFrom_end _ _ H). reflexivity.
Qed.

(** C3: for a scanner whose [LastIndex] lies between [-1] and the length
    of the input (a fresh scanner, and every scanner that [Next] or
    [Reset] leaves), [Next] returns the name and the ampersand index of the
    first candidate that starts strictly after [LastIndex] and moves
    [LastIndex] to the semicolon that ends it ([idx + 1 + len name]); when
    no candidate remains it returns the empty name and [-1], moves
    [LastIndex] to the length of the input, and every later call does the
    same.  [LastIndex] stays in that range.  [Reset] puts [LastIndex] back
    to [-1].  On ["&but; &this;"] the calls yield [("but", 0)],
    [("this", 6)], then the empty name and [-1], before and after a
    [Reset]. *)
Theorem Next_contract (scanner : NamedReferenceScanner) :
  -1 <= LastIndex scanner <= len (Value scanner) ->
  (exists name idx scanner',
      Next scanner = Ret (name, idx, scanner') /\
      Value scanner' = Value scanner /\
      -1 <= LastIndex scanner' <= len (Value scanner') /\
      ((idx <> -1 /\
        candidate (Value scanner) idx name /\
        LastIndex scanner < idx /\
        (forall i' name', candidate (Value scanner) i' name' ->
                          LastIndex scanner < i' -> idx <= i') /\
        LastIndex scanner' = idx + 1 + len name /\
        nth_error (Value scanner) (Z.to_nat (LastIndex scanner')) = Some UnicodeSemicolon)
       \/
       (idx = -1 /\ name = [] /\
        (forall i' name', candidate (Value scanner) i' name' ->
                          i' <= LastIndex scanner) /\
        LastIndex scanner' = len (Value scanner) /\
        Next scanner' = Ret ([], -1, scanner'))))
  /\ Reset scanner = mkScanner (Value scanner) (-1)
  /\ (let s := txt "&but; &this;" in
      Next (mkScanner s (-1)) = Ret (txt "but", 0, mkScanner s 4) /\
      Next (mkScanner s 4) = Ret (txt "this", 6, mkScanner s 11) /\
      Next (mkScanner s 11) = Ret ([], -1, mkScanner s 12) /\
      Next (mkScanner s 12) = Ret ([], -1, mkScanner s 12) /\
      Reset (mkScanner s 12) = mkScanner s (-1)).
Proof.
  intros [Hl Hu]. split; [|split; [reflexivity|cbv zeta; repeat split; reflexivity]].
  destruct scanner as [val last]. cbn [Value LastIndex] in *.
  rewrite (Next_refsFrom _ _ Hl).
  destruct (refsFrom val last) as [|[name a] tl] eqn:Hr.
  - exists [], (-1), (mkScanner val (len val)). cbn [Value LastIndex].
    split; [reflexivity|]. split; [reflexivity|].
    split; [pose proof (len_nonneg val); lia|]. right.
    split; [reflexivity|]. split; [reflexivity|]. split; [|split; [reflexivity|]].
    + intros i' name' Hc. destruct (Z.le_gt_cases i' last) as [|Hgt]; [assumption|].
      exfalso. assert (Hin : In (name', i') (refsFrom val last))
        by (apply refsFrom_candidate; auto with zarith).
      rewrite Hr in Hin. exact Hin.
    + apply Next_exhausted; pose proof (len_nonneg val); lia.
  - exists name, a, (mkScanner val (a + 1 + len name)). cbn [Value LastIndex].
    assert (Hin : In (name, a) (refsFrom val last)) by (rewrite Hr; now left).
    apply (refsFrom_candidate _ _ _ _ Hl) in Hin as [Hc Hlt].
    pose proof (candidate_bounds _ _ _ Hc) as [Ha Hb].
    pose proof (len_nonneg name) as Hname.
    split; [reflexivity|]. split; [reflexivity|]. split; [lia|]. left.
    split; [lia|]. split; [assumption|]. split; [assumption|].
    split; [|split; [reflexivity|]].
    + intros i' name' Hc' Hlt'.
      assert (Hin' : In (name', i') (refsFrom val last))
        by (apply refsFrom_candidate; auto).
      rewrite Hr in Hin'. destruct Hin' as [Heq|Hin'].
      * injection Heq as _ <-. lia.
      * pose proof (refs_head_least _ _ _ _ _ Hr _ _ Hin'). lia.
    + destruct Hc as (_ & _ & _ & post & Hk).
      pose proof (len_nonneg name).
      replace (Z.to_nat (a + 1 + len name))
        with (Z.to_nat a + (1 + List.length name))%nat by (unfold len; lia).
      rewrite <- (firstn_skipn (Z.to_nat a) val) at 1.
      rewrite nth_error_app2 by (rewrite length_firstn; lia).
      rewrite Hk.
      assert (List.length (firstn (Z.to_nat a) val) = Z.to_nat a) as ->.
      { apply (f_equal (@List.length _)) in Hk. rewrite length_skipn in Hk.
        cbn in Hk. rewrite length_firstn. lia. }
      replace (Z.to_nat a + (1 + List.length name) - Z.to_nat a)%nat
        with (S (List.length name)) by lia.
      cbn [nth_error]. rewrite nth_error_app2 by lia.
      now rewrite Nat.sub_diag.
Qed.

(** A fresh scanner on ["&but; &this;"] meets the hypothesis of C3. *)
Lemma Next_contract_witness :
  -1 <= LastIndex (mkScanner (txt "&but; &this;") (-1))
     <= len (Value (mkScanner (txt "&but; &this;") (-1))) /\
  exists name idx scanner',
    Next (mkScanner (txt "&but; &this;") (-1)) = Ret (name, idx, scanner').
Proof.
  assert (H : -1 <= LastIndex (mkScanner (txt "&but; &this;") (-1))
                 <= len (Value (mkScanner (txt "&but; &this;") (-1))))
    by (cbn; lia).
  split; [exact H|].
  destruct (Next_contract _ H) as [(name & idx & scanner' & Hn & _) _].
  exists name, idx, scanner'. exact Hn.
Defined.

(** ** Skipped and failed candidates *)

Lemma parseName_fail run c rest :
  forallb isAlnum run = true ->
  isAlnum c = false -> c <> UnicodeSemicolon ->
  parseName (run ++ c :: rest) = None.
Proof.
  intros Hrun Hc Hs. induction run as [|d run IH].
  - cbn. destruct (Ascii.eqb_spec c UnicodeSemicolon); [contradiction|].
    now rewrite Hc.
  - cbn in Hrun. apply andb_prop in Hrun as [Hd Hrun].
    cbn. rewrite (isAlnum_not_semicolon _ Hd), Hd. cbn. now rewrite IH.
Qed.

(** C4: an ampersand directly followed by a semicolon is never a match and
    the outer loop goes on at the next position; a candidate that hits a
    byte that is neither alphanumeric nor a semicolon makes the outer loop
    go on one position after its ampersand, so the first candidate of the
    input is found whatever failed before it, as on ["&this &is; also;"]
    and on ["&a&b;"], where the byte that fails the first candidate starts
    the match. *)
Theorem Next_skips_and_resumes :
  (forall rest i,
      ampLoop (UnicodeAmpersand :: UnicodeSemicolon :: rest) i
      = ampLoop (UnicodeSemicolon :: rest) (i + 1)) /\
  (forall val last name idx scanner',
      -1 <= last ->
      Next (mkScanner val last) = Ret (name, idx, scanner') -> idx <> -1 ->
      name <> [] /\
      forall post, skipn (Z.to_nat idx) val
                   <> UnicodeAmpersand :: UnicodeSemicolon :: post) /\
  (forall run c rest i,
      forallb isAlnum run = true ->
      isAlnum c = false -> c <> UnicodeSemicolon ->
      ampLoop (UnicodeAmpersand :: run ++ c :: rest) i
      = ampLoop (run ++ c :: rest) (i + 1)) /\
  (forall val i name,
      candidate val i name ->
      (forall i' name', candidate val i' name' -> i <= i') ->
      Next (mkScanner val (-1))
      = Ret (name, i, mkScanner val (i + 1 + len name))) /\
  Next (mkScanner (txt "&this &is; also;") (-1))
  = Ret (txt "is", 6, mkScanner (txt "&this &is; also;") 9) /\
  Next (mkScanner (txt "&a&b;") (-1))
  = Ret (txt "b", 2, mkScanner (txt "&a&b;") 4).
Proof.
  split; [|split; [|split; [|split; [|split; reflexivity]]]].
  - intros rest i. rewrite ampLoop_cons. rewrite Ascii.eqb_refl.
    cbn [parseName]. now rewrite Ascii.eqb_refl.
  - intros val last name idx scanner' Hl HN Hidx.
    rewrite (Next_refsFrom _ _ Hl) in HN.
    destruct (refsFrom val last) as [|[name0 a] tl] eqn:Hr.
    + injection HN as _ <- _. contradiction.
    + injection HN as <- <- _.
      assert (Hin : In (name0, a) (refsFrom val last)) by (rewrite Hr; now left).
      apply (refsFrom_candidate _ _ _ _ Hl) in Hin as [(_ & Hne & Hal & post & Hk) _].
      split; [assumption|]. intros post' Hk'. rewrite Hk in Hk'.
      destruct name0 as [|n ame]; [contradiction|].
      cbn in Hal. apply andb_prop in Hal as [Hn _].
      injection Hk' as -> _. discriminate Hn.
  - intros run c rest i Hrun Hc Hs. rewrite ampLoop_cons, Ascii.eqb_refl.
    now rewrite (parseName_fail _ _ _ Hrun Hc Hs).
  - intros val i name Hc Hleast.
    assert (Hl : -1 <= -1) by lia.
    rewrite (Next_refsFrom _ _ Hl).
    pose proof (candidate_bounds _ _ _ Hc) as [Hi _].
    assert (Hin : In (name, i) (refsFrom val (-1)))
      by (apply refsFrom_candidate; [lia|split; [assumption|lia]]).
    destruct (refsFrom val (-1)) as [|[name0 a] tl] eqn:Hr; [contradiction|].
    assert (Hin0 : In (name0, a) (refsFrom val (-1))) by (rewrite Hr; now left).
    apply (refsFrom_candidate _ _ _ _ Hl) in Hin0 as [Hc0 _].
    destruct Hin as [Heq|Hin]; [now injection Heq as -> ->|].
    pose proof (refs_head_least _ _ _ _ _ Hr _ _ Hin).
    pose proof (Hleast _ _ Hc0). lia.
Qed.

(** ** Detection *)

Lemma refs_length rest i : (List.length (refs rest i) <= List.length rest)%nat.
Proof.
  revert i. induction rest as [|c rest IH]; intros i; [apply Nat.le_refl|].
  cbn [refs List.length]. specialize (IH (i + 1)).
  destruct (Ascii.eqb c UnicodeAmpersand); [|lia].
  destruct (parseName rest) as [[|n ame]|]; cbn [List.length]; lia.
Qed.

Lemma refsFrom_length val last :
  (List.length (refsFrom val last) < budget val)%nat.
Proof.
  unfold refsFrom, budget.
  pose proof (refs_length (skipn (Z.to_nat (last + 1)) val) (last + 1)) as H.
  rewrite length_skipn in H. lia.
Qed.

Lemma refsFrom_head val last name a tl :
  -1 <= last -> refsFrom val last = (name, a) :: tl ->
  candidate val a name /\ last < a /\ tl = refsFrom val (a + 1 + len name).
Proof.
  intros Hl Hr.
  assert (Hin : In (name, a) (refsFrom val last)) by (rewrite Hr; now left).
  apply (refsFrom_candidate _ _ _ _ Hl) in Hin as [Hc Hlt].
  split; [assumption|]. split; [assumption|]. exact (refsFrom_tail _ _ _ _ _ Hl Hr).
Qed.

Section EngineProperties.

Variable IsCharacterReferenceName : text -> bool.

Local Abbreviation isRef := IsCharacterReferenceName.
Local Abbreviation amb := (ambiguous IsCharacterReferenceName).

Lemma scanAll_refsFrom fuel val last :
  -1 <= last -> (List.length (refsFrom val last) < fuel)%nat ->
  scanAll fuel (mkScanner val last) = Ret (refsFrom val last).
Proof.
  revert last. induction fuel as [|fuel IH]; intros last Hl Hf; [lia|].
  cbn [scanAll]. rewrite (Next_refsFrom _ _ Hl).
  destruct (refsFrom val last) as [|[name a] tl] eqn:Hr; [reflexivity|].
  destruct (refsFrom_head _ _ _ _ _ Hl Hr) as (Hc & Hlt & ->).
  cbn [bind]. replace (a =? -1) with false by (symmetry; apply Z.eqb_neq; lia).
  pose proof (len_nonneg name).
  rewrite IH; [reflexivity|lia|]. cbn [List.length] in Hf. lia.
Qed.

Lemma hasLoop_refsFrom fuel val last :
  -1 <= last -> (List.length (refsFrom val last) < fuel)%nat ->
  hasLoop isRef fuel (mkScanner val last) = Ret (existsb amb (refsFrom val last)).
Proof.
  revert last. induction fuel as [|fuel IH]; intros last Hl Hf; [lia|].
  cbn [hasLoop]. rewrite (Next_refsFrom _ _ Hl).
  destruct (refsFrom val last) as [|[name a] tl] eqn:Hr; [reflexivity|].
  destruct (refsFrom_head _ _ _ _ _ Hl Hr) as (Hc & Hlt & ->).
  cbn [bind]. replace (a =? -1) with false by (symmetry; apply Z.eqb_neq; lia).
  cbn [existsb]. unfold ambiguous at 1. cbn [fst].
  destruct (negb (isRef name)); [reflexivity|]. cbn [orb].
  pose proof (len_nonneg name).
  apply IH; [lia|]. cbn [List.length] in Hf. lia.
Qed.

Lemma HasAmbiguousAmpersand_refs val :
  HasAmbiguousAmpersand isRef val = Ret (existsb amb (refsFrom val (-1))).
Proof.
  apply hasLoop_refsFrom; [lia|apply refsFrom_length].
Qed.

(** C2: [HasAmbiguousAmpersand] returns, and it returns [true] exactly when
    the text has a candidate (ampersand, one or more ASCII alphanumerics,
    semicolon) whose name is not in the table; so it returns [false] when
    there is no such candidate, in particular when there is no candidate
    at all; and it returns [true] on ["&" + n + ";"] for every non-empty
    alphanumeric [n] that is not in the table. *)
Theorem HasAmbiguousAmpersand_spec :
  (forall val,
      exists b,
        HasAmbiguousAmpersand isRef val = Ret b /\
        (b = true <->
         exists i name, candidate val i name /\ isRef name = false)) /\
  (forall val,
      (forall i name, ~ candidate val i name) ->
      HasAmbiguousAmpersand isRef val = Ret false) /\
  (forall n,
      n <> [] -> forallb isAlnum n = true -> isRef n = false ->
      HasAmbiguousAmpersand isRef (UnicodeAmpersand :: n ++ [UnicodeSemicolon])
      = Ret true).
Proof.
  assert (Hiff : forall val,
             existsb amb (refsFrom val (-1)) = true <->
             exists i name, candidate val i name /\ isRef name = false).
  { intros val. rewrite existsb_exists. split.
    - intros [[name a] [Hin Ha]].
      apply refsFrom_candidate in Hin as [Hc _]; [|lia].
      exists a, name. split; [assumption|].
      unfold ambiguous in Ha. cbn in Ha. now apply negb_true_iff.
    - intros (i & name & Hc & Hn). exists (name, i). split.
      + apply refsFrom_candidate; [lia|]. split; [assumption|].
        destruct Hc as [Hi _]. lia.
      + unfold ambiguous. cbn. now rewrite Hn. }
  split; [|split].
  - intros val. exists (existsb amb (refsFrom val (-1))).
    split; [apply HasAmbiguousAmpersand_refs|apply Hiff].
  - intros val Hno. rewrite HasAmbiguousAmpersand_refs. f_equal.
    apply not_true_is_false. intros H. apply Hiff in H as (i & name & Hc & _).
    exact (Hno _ _ Hc).
  - intros n Hne Hal Hn. rewrite HasAmbiguousAmpersand_refs. f_equal.
    apply Hiff. exists 0, n. split; [|assumption].
    unfold candidate. repeat split; try assumption; try lia.
    exists []. reflexivity.
Qed.

End EngineProperties.

(** C2 at the table [sampleTable] and the name ["dan"]. *)
Lemma HasAmbiguousAmpersand_spec_witness :
  HasAmbiguousAmpersand sampleTable (txt "&dan;") = Ret true.
Proof.
  apply (proj2 (proj2 (HasAmbiguousAmpersand_spec sampleTable)) (txt "dan"));
    [discriminate|reflexivity|reflexivity].
Defined.

(** ** Substitution at a list of indexes *)

Lemma substitute_nil s i : substitute s i [] = s.
Proof.
  revert i. induction s as [|c s IH]; intros i; [reflexivity|].
  cbn. now rewrite IH.
Qed.

Lemma existsb_eqb_above i idxs :
  (forall x, In x idxs -> i < x) -> existsb (Z.eqb i) idxs = false.
Proof.
  intros H. apply not_true_is_false. intros He.
  apply existsb_exists in He as [x [Hin Hx]]. apply Z.eqb_eq in Hx.
  specialize (H _ Hin). lia.
Qed.

Lemma substitute_drop s i a idxs :
  a < i -> substitute s i (a :: idxs) = substitute s i idxs.
Proof.
  revert i. induction s as [|c s IH]; intros i Ha; [reflexivity|].
  cbn [substitute existsb].
  replace (i =? a) with false by (symmetry; apply Z.eqb_neq; lia).
  cbn [orb]. rewrite IH by lia. reflexivity.
Qed.

Lemma substitute_untouched s i idxs :
  (forall x, In x idxs -> i + len s <= x) -> substitute s i idxs = s.
Proof.
  revert i. induction s as [|c s IH]; intros i H; [reflexivity|].
  cbn [substitute]. rewrite len_cons in H. pose proof (len_nonneg s).
  rewrite existsb_eqb_above by (intros x Hx; specialize (H x Hx); lia).
  rewrite IH by (intros x Hx; specialize (H x Hx); lia). reflexivity.
Qed.

Lemma substitute_app s t i idxs :
  substitute (s ++ t) i idxs = substitute s i idxs ++ substitute t (i + len s) idxs.
Proof.
  revert i. induction s as [|c s IH]; intros i.
  - cbn. f_equal. lia.
  - cbn [app substitute]. rewrite IH, len_cons, <- app_assoc.
    do 3 f_equal. lia.
Qed.

(** ** Order of the matches *)

Lemma ascending_weaken lo lo' hi ms :
  lo' <= lo -> ascending lo hi ms -> ascending lo' hi ms.
Proof.
  destruct ms as [|[name a] ms]; [trivial|]. cbn. intros H [Ha Hms].
  split; [lia|assumption].
Qed.

Lemma ascending_widen lo hi hi' ms :
  hi <= hi' -> ascending lo hi ms -> ascending lo hi' ms.
Proof.
  revert lo. induction ms as [|[name a] ms IH]; intros lo H; [trivial|].
  cbn. intros [Ha Hms]. split; [lia|auto].
Qed.

Lemma ascending_lower lo hi ms m :
  ascending lo hi ms -> In m ms -> lo <= snd m.
Proof.
  revert lo. induction ms as [|[name a] ms IH]; intros lo; [contradiction|].
  cbn. intros [Ha Hms] [<-|Hin]; [cbn; lia|].
  specialize (IH _ Hms Hin). lia.
Qed.

Lemma refs_ascending rest i : ascending i (i + len rest) (refs rest i).
Proof.
  revert i. induction rest as [|c rest IH]; intros i; [exact I|].
  assert (Hrec : ascending i (i + len (c :: rest)) (refs rest (i + 1))).
  { apply ascending_weaken with (lo := i + 1); [lia|].
    rewrite len_cons. replace (i + (len rest + 1)) with (i + 1 + len rest) by lia.
    apply IH. }
  cbn [refs]. destruct (Ascii.eqb c UnicodeAmpersand); [|assumption].
  destruct (parseName rest) as [[|n ame]|]; try assumption.
  cbn [ascending]. rewrite len_cons. pose proof (len_nonneg rest).
  split; [lia|]. replace (i + (len rest + 1)) with (i + 1 + len rest) by lia.
  apply IH.
Qed.

Lemma refsFrom_ascending val last :
  -1 <= last -> ascending (last + 1) (len val) (refsFrom val last).
Proof.
  intros Hl. unfold refsFrom.
  destruct (Z.le_gt_cases (len val) (last + 1)) as [Hle|Hgt].
  - rewrite skipn_all2 by (unfold len in Hle; lia). exact I.
  - eapply ascending_widen; [|apply refs_ascending].
    rewrite len_skipn. lia.
Qed.

Lemma ambiguousIndexes_lower isRef lo hi ms x :
  ascending lo hi ms -> In x (ambiguousIndexes isRef ms) -> lo <= x.
Proof.
  intros Ha Hin. unfold ambiguousIndexes in Hin.
  apply in_map_iff in Hin as [m [<- Hm]]. apply filter_In in Hm as [Hm _].
  exact (ascending_lower _ _ _ _ Ha Hm).
Qed.

(** ** Slices and copies *)

Lemma slice_ok s lo hi :
  0 <= lo <= hi -> hi <= len s ->
  slice s lo hi = Ret (firstn (Z.to_nat (hi - lo)) (skipn (Z.to_nat lo) s)).
Proof.
  intros H1 H2. unfold slice.
  replace ((0 <=? lo) && (lo <=? hi) && (hi <=? len s)) with true
    by (symmetry; rewrite !andb_true_iff, !Z.leb_le; lia).
  reflexivity.
Qed.

Lemma copy_exact pre free src :
  len src <= len free ->
  copy (pre ++ free) (len pre) src
  = Ret (pre ++ src ++ skipn (List.length src) free, len src).
Proof.
  intros H. unfold copy. pose proof (len_nonneg pre).
  rewrite len_app.
  replace ((0 <=? len pre) && (len pre <=? len pre + len free)) with true
    by (symmetry; rewrite andb_true_iff, !Z.leb_le; pose proof (len_nonneg free); lia).
  replace (Z.min (len pre + len free - len pre) (len src)) with (len src) by lia.
  f_equal. f_equal.
  - f_equal; [apply firstn_app_exact; unfold len; lia|].
    f_equal; [apply firstn_all2; unfold len; lia|].
    replace (Z.to_nat (len pre + len src))
      with (List.length pre + List.length src)%nat by (unfold len; lia).
    rewrite <- skipn_plus. f_equal. now apply skipn_app_exact.
Qed.

Section EscapeProperties.

Variable IsCharacterReferenceName : text -> bool.

Local Abbreviation isRef := IsCharacterReferenceName.
Local Abbreviation amb := (ambiguous IsCharacterReferenceName).

(** ** The counting loop *)

Lemma countLoop_refsFrom fuel val last count :
  -1 <= last -> (List.length (refsFrom val last) < fuel)%nat ->
  countLoop isRef fuel (mkScanner val last) count
  = Ret (count + Z.of_nat (List.length (filter amb (refsFrom val last))),
         mkScanner val (len val)).
Proof.
  revert last count. induction fuel as [|fuel IH]; intros last count Hl Hf; [lia|].
  cbn [countLoop]. rewrite (Next_refsFrom _ _ Hl).
  destruct (refsFrom val last) as [|[name a] tl] eqn:Hr.
  - cbn. do 2 f_equal. lia.
  - destruct (refsFrom_head _ _ _ _ _ Hl Hr) as (Hc & Hlt & ->).
    cbn [bind]. replace (a =? -1) with false by (symmetry; apply Z.eqb_neq; lia).
    pose proof (len_nonneg name). cbn [List.length] in Hf.
    cbn [filter]. unfold ambiguous at 1 3. cbn [fst].
    destruct (negb (isRef name)); rewrite IH by lia; cbn [List.length];
      do 2 f_equal; lia.
Qed.

(** ** The copy loop *)

Lemma assemble_length val src ms :
  0 <= src <= len val -> ascending src (len val) ms ->
  len (assemble isRef val src ms)
  = len val - src + 4 * Z.of_nat (List.length (filter amb ms)).
Proof.
  revert src. induction ms as [|[name a] ms IH]; intros src Hs Ha.
  - cbn. rewrite len_skipn. lia.
  - cbn in Ha. destruct Ha as [Ha Hms].
    cbn [assemble filter]. unfold ambiguous at 1. cbn [fst].
    destruct (negb (isRef name)).
    + rewrite !len_app, len_firstn, len_skipn, IH by (assumption || lia).
      cbn [List.length]. change (len htmlAmp) with 5. lia.
    + apply IH; [assumption|]. apply ascending_weaken with (lo := a + 1); [lia|assumption].
Qed.

Lemma assemble_substitute val src ms :
  0 <= src <= len val -> ascending src (len val) ms ->
  assemble isRef val src ms
  = substitute (skipn (Z.to_nat src) val) src (ambiguousIndexes isRef ms).
Proof.
  revert src. induction ms as [|[name a] ms IH]; intros src Hs Ha.
  - cbn. now rewrite substitute_nil.
  - cbn in Ha. destruct Ha as [Ha Hms].
    cbn [assemble]. unfold ambiguousIndexes. cbn [filter].
    unfold ambiguous at 1. cbn [fst].
    destruct (negb (isRef name)).
    + cbn [map snd]. fold (ambiguousIndexes isRef ms).
      rewrite IH by (assumption || lia).
      rewrite <- (firstn_skipn (Z.to_nat (a - src)) (skipn (Z.to_nat src) val)) at 2.
      rewrite substitute_app.
      assert (Hlen : len (firstn (Z.to_nat (a - src)) (skipn (Z.to_nat src) val)) = a - src)
        by (rewrite len_firstn, len_skipn; lia).
      rewrite Hlen.
      rewrite (substitute_untouched (firstn (Z.to_nat (a - src)) (skipn (Z.to_nat src) val))).
      2:{ rewrite Hlen. intros x [<-|Hx]; [lia|].
          pose proof (ambiguousIndexes_lower _ _ _ _ _ Hms Hx). lia. }
      f_equal. rewrite skipn_plus.
      replace (Z.to_nat src + Z.to_nat (a - src))%nat with (Z.to_nat a) by lia.
      replace (src + (a - src)) with a by lia.
      destruct (skipn (Z.to_nat a) val) as [|c r] eqn:Hk.
      { apply (f_equal len) in Hk. rewrite len_skipn in Hk. cbn in Hk. lia. }
      replace (Z.to_nat (a + 1)) with (Z.to_nat a + 1)%nat by lia.
      rewrite <- skipn_plus, Hk. cbn [skipn substitute existsb].
      rewrite Z.eqb_refl. cbn [orb]. f_equal.
      symmetry. apply substitute_drop. lia.
    + fold (ambiguousIndexes isRef ms). apply IH; [assumption|].
      apply ascending_weaken with (lo := a + 1); [lia|assumption].
Qed.

Lemma copyLoop_assemble fuel val last pre free src :
  -1 <= last -> (List.length (refsFrom val last) < fuel)%nat ->
  0 <= src <= last + 1 -> last + 1 <= len val ->
  len (assemble isRef val src (refsFrom val last)) <= len free ->
  copyLoop isRef fuel val (mkScanner val last) (pre ++ free) (len pre) src
  = Ret (pre ++ assemble isRef val src (refsFrom val last)
             ++ skipn (List.length (assemble isRef val src (refsFrom val last))) free).
Proof.
  revert last pre free src.
  induction fuel as [|fuel IH]; intros last pre free src Hl Hf Hs Hv Hfit; [lia|].
  cbn [copyLoop]. rewrite (Next_refsFrom _ _ Hl).
  destruct (refsFrom val last) as [|[name a] tl] eqn:Hr.
  - cbn [bind assemble] in *. rewrite Z.eqb_refl.
    rewrite slice_ok by lia. cbn [bind].
    rewrite firstn_all2 by (rewrite length_skipn; unfold len; lia).
    rewrite copy_exact by assumption. reflexivity.
  - destruct (refsFrom_head _ _ _ _ _ Hl Hr) as (Hc & Hlt & ->).
    pose proof (candidate_bounds _ _ _ Hc) as [Ha Hb].
    pose proof (len_nonneg name). cbn [List.length] in Hf.
    cbn [bind]. replace (a =? -1) with false by (symmetry; apply Z.eqb_neq; lia).
    cbn [assemble] in *.
    destruct (negb (isRef name)).
    + rewrite slice_ok by lia. cbn [bind].
      set (seg := firstn (Z.to_nat (a - src)) (skipn (Z.to_nat src) val)) in *.
      set (out := assemble isRef val (a + 1) (refsFrom val (a + 1 + len name))) in *.
      rewrite !len_app in Hfit. change (len htmlAmp) with 5 in Hfit.
      pose proof (len_nonneg seg). pose proof (len_nonneg out).
      rewrite copy_exact by lia. cbn [bind].
      rewrite app_assoc. rewrite <- len_app.
      rewrite copy_exact
        by (rewrite len_skipn; change (len htmlAmp) with 5; unfold len in *; lia).
      cbn [bind]. rewrite app_assoc. rewrite <- len_app.
      rewrite IH; try lia.
      * rewrite <- !app_assoc. do 3 f_equal.
        rewrite !skipn_plus, !length_app. f_equal; lia.
      * rewrite !len_skipn. fold out.
        change (List.length htmlAmp) with 5%nat. unfold len in *. lia.
    + apply IH; try lia; assumption.
Qed.

(** ** The two descriptions of the escaped text agree *)

Lemma ambiguousIndexes_refs_above rest i x :
  In x (ambiguousIndexes isRef (refs rest (i + 1))) -> i < x.
Proof.
  intros H.
  pose proof (ambiguousIndexes_lower _ _ _ _ _ (refs_ascending rest (i + 1)) H).
  lia.
Qed.

Lemma substitute_escaped rest i :
  substitute rest i (ambiguousIndexes isRef (refs rest i)) = escaped isRef rest.
Proof.
  revert i. induction rest as [|c rest IH]; intros i; [reflexivity|].
  assert (Hrec : substitute (c :: rest) i (ambiguousIndexes isRef (refs rest (i + 1)))
                 = c :: escaped isRef rest).
  { cbn [substitute].
    rewrite existsb_eqb_above by (intros x; apply ambiguousIndexes_refs_above).
    now rewrite IH. }
  cbn [refs escaped]. destruct (Ascii.eqb c UnicodeAmpersand); [|assumption].
  destruct (parseName rest) as [[|n ame]|]; try assumption.
  unfold ambiguousIndexes. cbn [filter]. unfold ambiguous at 1. cbn [fst].
  destruct (negb (isRef (n :: ame))); [|assumption].
  cbn [map snd substitute existsb]. rewrite Z.eqb_refl. cbn [orb].
  fold (ambiguousIndexes isRef (refs rest (i + 1))).
  rewrite substitute_drop by lia. now rewrite IH.
Qed.

Lemma assemble_escaped val :
  assemble isRef val 0 (refsFrom val (-1)) = escaped isRef val.
Proof.
  rewrite assemble_substitute.
  - apply substitute_escaped.
  - pose proof (len_nonneg val). lia.
  - apply (refsFrom_ascending val (-1)). lia.
Qed.

Lemma escaped_length val :
  len (escaped isRef val)
  = len val + 4 * Z.of_nat (List.length (filter amb (refsFrom val (-1)))).
Proof.
  rewrite <- assemble_escaped, assemble_length.
  - lia.
  - pose proof (len_nonneg val). lia.
  - apply (refsFrom_ascending val (-1)). lia.
Qed.

Lemma escaped_unambiguous val :
  filter amb (refsFrom val (-1)) = [] -> escaped isRef val = val.
Proof.
  intros H. rewrite <- (substitute_escaped val 0).
  unfold ambiguousIndexes. change (refs val 0) with (refsFrom val (-1)).
  rewrite H. apply substitute_nil.
Qed.

(** ** [escapeAmbiguousAmpersandsBuffer] *)

Lemma escapeAmbiguousAmpersandsBuffer_spec val :
  escapeAmbiguousAmpersandsBuffer isRef val
  = Ret (match filter amb (refsFrom val (-1)) with
         | [] => None
         | _ :: _ => Some (escaped isRef val)
         end).
Proof.
  unfold escapeAmbiguousAmpersandsBuffer.
  rewrite countLoop_refsFrom by (lia || apply refsFrom_length).
  cbn [bind Reset Value]. rewrite !Z.add_0_l.
  pose proof (escaped_length val) as Hlen.
  destruct (filter amb (refsFrom val (-1))) as [|m ms] eqn:Hf; [reflexivity|].
  replace (Z.of_nat (List.length (m :: ms)) =? 0) with false
    by (symmetry; apply Z.eqb_neq; cbn [List.length]; lia).
  change (len htmlAmp) with 5.
  set (n := Z.of_nat (List.length (m :: ms))) in *.
  pose proof (copyLoop_assemble (budget val) val (-1) [] (make (len val - n + n * 5)) 0)
    as Hcopy.
  cbn [app] in Hcopy. change (len []) with 0 in Hcopy.
  assert (Hmake : len (make (len val - n + n * 5)) = len val + 4 * n).
  { unfold make, len. rewrite repeat_length. unfold len in *. lia. }
  unfold Reset. cbn [Value]. rewrite Hcopy.
  - cbn [bind]. rewrite assemble_escaped. do 2 f_equal.
    rewrite skipn_all2; [apply app_nil_r|].
    unfold len in *. lia.
  - lia.
  - apply refsFrom_length.
  - lia.
  - pose proof (len_nonneg val). lia.
  - rewrite assemble_escaped, Hlen, Hmake. lia.
Qed.

(** ** The early exits of [EscapeAmbiguousAmpersands] *)

Lemma indexFrom_found s r i (k : nat) post :
  skipn k s = r :: post ->
  i <= indexFrom s r i <= i + Z.of_nat k.
Proof.
  revert i k. induction s as [|c s IH]; intros i k Hk.
  - now rewrite skipn_nil in Hk.
  - cbn [indexFrom]. destruct (Ascii.eqb_spec c r) as [->|Hc]; [lia|].
    destruct k as [|k]; [cbn in Hk; congruence|].
    cbn in Hk. specialize (IH (i + 1) k Hk). lia.
Qed.

Lemma candidate_IndexRune val a name :
  candidate val a name ->
  0 <= IndexRune val UnicodeAmpersand <= a /\ a + 2 < len val.
Proof.
  intros Hc. pose proof (candidate_bounds _ _ _ Hc) as [Ha Hb].
  destruct Hc as (_ & Hne & _ & post & Hk).
  split.
  - pose proof (indexFrom_found _ _ 0 _ _ Hk). unfold IndexRune. lia.
  - destruct name; [contradiction|]. rewrite len_cons in Hb.
    pose proof (len_nonneg name). lia.
Qed.

Lemma refsFrom_no_candidate val :
  (forall a name, ~ candidate val a name) -> refsFrom val (-1) = [].
Proof.
  intros H. destruct (refsFrom val (-1)) as [|[name a] tl] eqn:Hr; [reflexivity|].
  exfalso. apply (H a name).
  apply (refsFrom_candidate val (-1) name a); [lia|]. rewrite Hr. now left.
Qed.

Lemma EscapeAmbiguousAmpersands_escaped val :
  EscapeAmbiguousAmpersands isRef val = Ret (escaped isRef val).
Proof.
  unfold EscapeAmbiguousAmpersands.
  destruct (len val <? 3) eqn:H3.
  { apply Z.ltb_lt in H3. rewrite escaped_unambiguous; [reflexivity|].
    rewrite refsFrom_no_candidate; [reflexivity|].
    intros a name Hc. apply candidate_IndexRune in Hc. lia. }
  destruct ((IndexRune val UnicodeAmpersand =? -1)
            || (IndexRune val UnicodeAmpersand >=? len val - 2)) eqn:Hi.
  { apply orb_true_iff in Hi.
    rewrite escaped_unambiguous; [reflexivity|].
    rewrite refsFrom_no_candidate; [reflexivity|].
    intros a name Hc. apply candidate_IndexRune in Hc.
    destruct Hi as [Hi|Hi]; [apply Z.eqb_eq in Hi|apply Z.geb_le in Hi]; lia. }
  rewrite escapeAmbiguousAmpersandsBuffer_spec. cbn [bind].
  destruct (filter amb (refsFrom val (-1))) eqn:Hf; [|reflexivity].
  now rewrite escaped_unambiguous.
Qed.

Lemma ambiguousIndexes_NoDup lo hi ms :
  ascending lo hi ms -> NoDup (ambiguousIndexes isRef ms).
Proof.
  revert lo. induction ms as [|[name a] ms IH]; intros lo Ha; [constructor|].
  cbn in Ha. destruct Ha as [Ha Hms].
  unfold ambiguousIndexes. cbn [filter]. unfold ambiguous at 1. cbn [fst].
  destruct (negb (isRef name)); [|exact (IH _ Hms)].
  cbn [map snd]. constructor; [|exact (IH _ Hms)].
  intros Hin. pose proof (ambiguousIndexes_lower _ _ _ _ _ Hms Hin). lia.
Qed.

(** C1: [EscapeAmbiguousAmpersands] returns the input with the byte at the
    index of each ambiguous ampersand (a match of the scanner whose name
    is not in the table; that byte is the ampersand) replaced by ["&amp;"]
    and every other byte copied; the output is longer than the input by 4
    bytes for each ambiguous ampersand. *)
Theorem EscapeAmbiguousAmpersands_spec (val : text) :
  exists ms,
    scanAll (budget val) (NewNamedReferenceScanner val) = Ret ms /\
    (forall name i, In (name, i) ms <-> candidate val i name) /\
    let idxs := ambiguousIndexes isRef ms in
    NoDup idxs /\
    (forall i, In i idxs ->
               nth_error val (Z.to_nat i) = Some UnicodeAmpersand) /\
    EscapeAmbiguousAmpersands isRef val = Ret (substitute val 0 idxs) /\
    len (substitute val 0 idxs) = len val + 4 * Z.of_nat (List.length idxs).
Proof.
  exists (refsFrom val (-1)).
  split; [apply scanAll_refsFrom; [lia|apply refsFrom_length]|].
  assert (Hcand : forall name i, In (name, i) (refsFrom val (-1)) <-> candidate val i name).
  { intros name i. rewrite refsFrom_candidate by lia. split; [tauto|].
    intros Hc. split; [assumption|]. destruct Hc as [Hi _]. lia. }
  split; [exact Hcand|]. cbv zeta.
  change (refsFrom val (-1)) with (refs val 0) at 3 4.
  rewrite substitute_escaped.
  split; [apply (ambiguousIndexes_NoDup 0 (len val)), (refsFrom_ascending val (-1)); lia|].
  split; [|split].
  - intros i Hin. unfold ambiguousIndexes in Hin.
    apply in_map_iff in Hin as [[name a] [Ha Hin]]. cbn in Ha. subst a.
    apply filter_In in Hin as [Hin _]. apply Hcand in Hin.
    destruct Hin as (_ & _ & _ & post & Hk).
    rewrite <- (Nat.add_0_r (Z.to_nat i)), <- nth_error_skipn, Hk. reflexivity.
  - apply EscapeAmbiguousAmpersands_escaped.
  - rewrite escaped_length. unfold ambiguousIndexes. now rewrite length_map.
Qed.

(** ** Idempotence *)

Lemma parseName_escaped rest : parseName (escaped isRef rest) = parseName rest.
Proof.
  induction rest as [|c rest IH]; [reflexivity|].
  cbn [escaped]. destruct (Ascii.eqb_spec c UnicodeAmpersand) as [->|Hc].
  - destruct (parseName rest) as [[|n ame]|]; try reflexivity.
    destruct (negb (isRef (n :: ame))); reflexivity.
  - cbn [parseName]. now rewrite IH.
Qed.

Lemma escaped_idempotent :
  isRef (txt "amp") = true ->
  forall s, escaped isRef (escaped isRef s) = escaped isRef s.
Proof.
  intros Hamp s. induction s as [|c s IH]; [reflexivity|].
  cbn [escaped]. destruct (Ascii.eqb c UnicodeAmpersand) eqn:Hc.
  - destruct (parseName s) as [[|n ame]|] eqn:Hp.
    + cbn [escaped]. now rewrite Hc, parseName_escaped, Hp, IH.
    + destruct (negb (isRef (n :: ame))) eqn:Hn.
      * change (htmlAmp ++ escaped isRef s)
          with ("&"%char :: "a"%char :: "m"%char :: "p"%char :: ";"%char
                  :: escaped isRef s).
        cbn. change ["a"%char; "m"%char; "p"%char] with (txt "amp").
        rewrite Hamp. cbn. now rewrite IH.
      * cbn [escaped]. now rewrite Hc, parseName_escaped, Hp, Hn, IH.
    + cbn [escaped]. now rewrite Hc, parseName_escaped, Hp, IH.
  - cbn [escaped]. now rewrite Hc, IH.
Qed.

(** C5: when ["amp"] is in the table, escaping the output of
    [EscapeAmbiguousAmpersands] again changes nothing. *)
Theorem EscapeAmbiguousAmpersands_idempotent (t : text) :
  isRef (txt "amp") = true ->
  exists t',
    EscapeAmbiguousAmpersands isRef t = Ret t' /\
    EscapeAmbiguousAmpersands isRef t' = Ret t' /\
    (x <- EscapeAmbiguousAmpersands isRef t ;; EscapeAmbiguousAmpersands isRef x)
    = EscapeAmbiguousAmpersands isRef t.
Proof.
  intros Hamp. exists (escaped isRef t).
  rewrite !EscapeAmbiguousAmpersands_escaped. cbn [bind].
  rewrite EscapeAmbiguousAmpersands_escaped, (escaped_idempotent Hamp).
  repeat split.
Qed.

(** ** The attribute-value escaper *)

Lemma indexFrom_range s r i :
  indexFrom s r i = -1 \/ i <= indexFrom s r i.
Proof.
  revert i. induction s as [|c s IH]; intros i; [now left|].
  cbn [indexFrom]. destruct (Ascii.eqb c r); [right; lia|].
  destruct (IH (i + 1)); [now left|right; lia].
Qed.

Lemma indexFrom_absent s r i : 0 <= i -> (indexFrom s r i = -1 <-> ~ In r s).
Proof.
  revert i. induction s as [|c s IH]; intros i Hi; [cbn; tauto|].
  cbn [indexFrom In]. destruct (Ascii.eqb_spec c r) as [->|Hc].
  - split; [lia|]. intros H. exfalso. apply H. now left.
  - rewrite IH by lia. tauto.
Qed.

Lemma Replace_absent s old new : ~ In old s -> Replace s old new = s.
Proof.
  unfold Replace. induction s as [|c s IH]; intros H; [reflexivity|].
  cbn [flat_map]. destruct (Ascii.eqb_spec c old) as [->|Hc].
  - exfalso. apply H. now left.
  - cbn [app]. rewrite IH; [reflexivity|]. intros Hin. apply H. now right.
Qed.

Lemma Replace_removes s old new : ~ In old new -> ~ In old (Replace s old new).
Proof.
  unfold Replace. intros Hnew. induction s as [|c s IH]; [exact (fun H => H)|].
  cbn [flat_map]. intros H. apply in_app_or in H as [H|H]; [|auto].
  destruct (Ascii.eqb_spec c old) as [->|Hc]; [auto|].
  destruct H as [H|[]]. auto.
Qed.

Lemma escaped_no_new_quote s :
  In UnicodeQuoteMark (escaped isRef s) -> In UnicodeQuoteMark s.
Proof.
  induction s as [|c s IH]; [exact (fun H => H)|].
  assert (Hrec : In UnicodeQuoteMark (c :: escaped isRef s) ->
                 In UnicodeQuoteMark (c :: s)).
  { intros [H|H]; [now left|right; auto]. }
  cbn [escaped]. destruct (Ascii.eqb c UnicodeAmpersand); [|assumption].
  destruct (parseName s) as [[|n ame]|]; try assumption.
  destruct (negb (isRef (n :: ame))); [|assumption].
  intros H. apply in_app_or in H as [H|H]; [|right; auto].
  cbn in H. repeat (destruct H as [H|H]; [discriminate H|]). contradiction.
Qed.

Lemma escaped_no_ampersand s :
  ~ In UnicodeAmpersand s -> escaped isRef s = s.
Proof.
  induction s as [|c s IH]; intros H; [reflexivity|].
  cbn [escaped]. destruct (Ascii.eqb_spec c UnicodeAmpersand) as [->|Hc].
  - exfalso. apply H. now left.
  - rewrite IH; [reflexivity|]. intros Hin. apply H. now right.
Qed.

(** Whether the guard before the call of
    [escapeAmbiguousAmpersandsBuffer] lets the call happen. *)
Lemma EscapeAttributeValueDoubleQuoted_cases val :
  EscapeAttributeValueDoubleQuoted isRef val
  = Ret (Replace
           (if negb (IndexRune val UnicodeAmpersand =? -1)
               && (IndexRune val UnicodeAmpersand <? IndexRune val UnicodeSemicolon)
            then escaped isRef val else val)
           UnicodeQuoteMark htmlQuot).
Proof.
  unfold EscapeAttributeValueDoubleQuoted.
  destruct (IndexRune val UnicodeAmpersand =? -1) eqn:Ha;
    destruct (IndexRune val UnicodeQuoteMark =? -1) eqn:Hq;
    cbn [andb negb bind].
  - apply Z.eqb_eq, indexFrom_absent in Hq; [|lia].
    now rewrite Replace_absent.
  - reflexivity.
  - apply Z.eqb_eq, indexFrom_absent in Hq; [|lia].
    destruct (IndexRune val UnicodeAmpersand <? IndexRune val UnicodeSemicolon).
    + rewrite escapeAmbiguousAmpersandsBuffer_spec. cbn [bind].
      rewrite Replace_absent
        by (intros H; apply Hq; now apply escaped_no_new_quote).
      destruct (filter amb (refsFrom val (-1))) eqn:Hf; [|reflexivity].
      now rewrite escaped_unambiguous.
    + cbn [bind]. now rewrite Replace_absent.
  - destruct (IndexRune val UnicodeAmpersand <? IndexRune val UnicodeSemicolon).
    + rewrite escapeAmbiguousAmpersandsBuffer_spec. cbn [bind].
      destruct (filter amb (refsFrom val (-1))) eqn:Hf; [|reflexivity].
      now rewrite escaped_unambiguous.
    + reflexivity.
Qed.

Lemma HasAmbiguousAmpersand_candidate val i name :
  candidate val i name -> isRef name = false ->
  HasAmbiguousAmpersand isRef val = Ret true.
Proof.
  intros Hc Hn. rewrite HasAmbiguousAmpersand_refs. f_equal.
  apply existsb_exists. exists (name, i). split.
  - apply refsFrom_candidate; [lia|]. split; [assumption|].
    destruct Hc as [Hi _]. lia.
  - unfold ambiguous. cbn. now rewrite Hn.
Qed.

Lemma alnum_no_quote n :
  forallb isAlnum n = true -> ~ In UnicodeQuoteMark n.
Proof.
  induction n as [|c n IH]; intros H; [exact (fun F => F)|].
  cbn in H. apply andb_prop in H as [Hc Hn].
  intros [->|Hin]; [discriminate Hc|]. exact (IH Hn Hin).
Qed.

(** C8: the call that escapes ambiguous ampersands happens only when the
    first ampersand comes before the first semicolon.  When it does not
    (in particular when the first semicolon comes first, or there is no
    semicolon) the output is the input with only its double quotes
    replaced, also on inputs such as [";&n;"] for which
    [HasAmbiguousAmpersand] returns [true]. *)
Theorem EscapeAttributeValueDoubleQuoted_prefilter :
  (forall val,
      IndexRune val UnicodeAmpersand <> -1 ->
      IndexRune val UnicodeAmpersand < IndexRune val UnicodeSemicolon ->
      EscapeAttributeValueDoubleQuoted isRef val
      = Ret (Replace (escaped isRef val) UnicodeQuoteMark htmlQuot)) /\
  (forall val,
      ~ IndexRune val UnicodeAmpersand < IndexRune val UnicodeSemicolon ->
      EscapeAttributeValueDoubleQuoted isRef val
      = Ret (Replace val UnicodeQuoteMark htmlQuot)) /\
  (forall val,
      IndexRune val UnicodeSemicolon = -1 \/
      IndexRune val UnicodeSemicolon < IndexRune val UnicodeAmpersand ->
      EscapeAttributeValueDoubleQuoted isRef val
      = Ret (Replace val UnicodeQuoteMark htmlQuot)) /\
  (forall n,
      n <> [] -> forallb isAlnum n = true -> isRef n = false ->
      let val := UnicodeSemicolon :: UnicodeAmpersand :: n ++ [UnicodeSemicolon] in
      HasAmbiguousAmpersand isRef val = Ret true /\
      EscapeAttributeValueDoubleQuoted isRef val = Ret val).
Proof.
  assert (Hnot : forall val,
             ~ IndexRune val UnicodeAmpersand < IndexRune val UnicodeSemicolon ->
             EscapeAttributeValueDoubleQuoted isRef val
             = Ret (Replace val UnicodeQuoteMark htmlQuot)).
  { intros val H. rewrite EscapeAttributeValueDoubleQuoted_cases.
    replace (IndexRune val UnicodeAmpersand <? IndexRune val UnicodeSemicolon)
      with false by (symmetry; apply Z.ltb_ge; lia).
    now rewrite andb_false_r. }
  split; [|split; [exact Hnot|split]].
  - intros val Ha Hlt. rewrite EscapeAttributeValueDoubleQuoted_cases.
    replace (IndexRune val UnicodeAmpersand =? -1) with false
      by (symmetry; now apply Z.eqb_neq).
    replace (IndexRune val UnicodeAmpersand <? IndexRune val UnicodeSemicolon)
      with true by (symmetry; now apply Z.ltb_lt).
    reflexivity.
  - intros val H. apply Hnot.
    destruct (indexFrom_range val UnicodeAmpersand 0) as [Hr|Hr];
      unfold IndexRune in *; lia.
  - intros n Hne Hal Hn val. split.
    + apply HasAmbiguousAmpersand_candidate with (i := 1) (name := n); [|assumption].
      unfold candidate. repeat split; try assumption; try lia.
      exists []. reflexivity.
    + rewrite Hnot.
      * f_equal. apply Replace_absent. subst val.
        intros [H|[H|H]]; try discriminate H.
        apply in_app_or in H as [H|[H|[]]]; [|discriminate H].
        exact (alnum_no_quote _ Hal H).
      * subst val. unfold IndexRune. cbn. lia.
Qed.

(** C9: an input with neither an ampersand nor a double quote is returned
    as it is; the output is always the input, or its ampersand-escaped
    form, with every double quote replaced by ["&#34;"], and has no double
    quote left; and [&dan;] followed by [xxx] in double quotes becomes ["&amp;dan;&#34;xxx&#34;"] when
    ["dan"] is not in the table. *)
Theorem EscapeAttributeValueDoubleQuoted_spec :
  (forall val,
      ~ In UnicodeAmpersand val -> ~ In UnicodeQuoteMark val ->
      EscapeAttributeValueDoubleQuoted isRef val = Ret val) /\
  (forall val,
      exists mid out,
        (mid = val \/ mid = escaped isRef val) /\
        EscapeAttributeValueDoubleQuoted isRef val = Ret out /\
        out = Replace mid UnicodeQuoteMark htmlQuot /\
        ~ In UnicodeQuoteMark out) /\
  (isRef (txt "dan") = false ->
   EscapeAttributeValueDoubleQuoted isRef (txt "&dan;" ++ UnicodeQuoteMark :: txt "xxx" ++ [UnicodeQuoteMark])
   = Ret (txt "&amp;dan;&#34;xxx&#34;")).
Proof.
  assert (Hq : ~ In UnicodeQuoteMark htmlQuot).
  { cbn. intros H. repeat (destruct H as [H|H]; [discriminate H|]). exact H. }
  split; [|split].
  - intros val Ha Hquo. rewrite EscapeAttributeValueDoubleQuoted_cases.
    rewrite (escaped_no_ampersand _ Ha).
    destruct (_ && _); now rewrite Replace_absent.
  - intros val. rewrite EscapeAttributeValueDoubleQuoted_cases.
    eexists. eexists. split; [|split; [reflexivity|split; [reflexivity|]]].
    + destruct (_ && _); [now right|now left].
    + now apply Replace_removes.
  - intros Hdan. rewrite EscapeAttributeValueDoubleQuoted_cases.
    cbn. change ["d"%char; "a"%char; "n"%char] with (txt "dan").
    rewrite Hdan. reflexivity.
Qed.

End EscapeProperties.

(** C5 at [sampleTable], which holds ["amp"]. *)
Lemma EscapeAmbiguousAmpersands_idempotent_witness :
  sampleTable (txt "amp") = true /\
  exists t',
    EscapeAmbiguousAmpersands sampleTable (txt "a &tuesday;") = Ret t' /\
    EscapeAmbiguousAmpersands sampleTable t' = Ret t'.
Proof.
  split; [reflexivity|].
  destruct (EscapeAmbiguousAmpersands_idempotent sampleTable (txt "a &tuesday;")
              eq_refl) as (t' & H1 & H2 & _).
  exists t'. split; assumption.
Defined.

(** C8 at [sampleTable] and the input [";&dan;"]. *)
Lemma EscapeAttributeValueDoubleQuoted_prefilter_witness :
  HasAmbiguousAmpersand sampleTable (txt ";&dan;") = Ret true /\
  EscapeAttributeValueDoubleQuoted sampleTable (txt ";&dan;") = Ret (txt ";&dan;").
Proof.
  apply (proj2 (proj2 (proj2 (EscapeAttributeValueDoubleQuoted_prefilter sampleTable)))
           (txt "dan")); [discriminate|reflexivity|reflexivity].
Defined.

(** C9 at [sampleTable], which does not hold ["dan"]. *)
Lemma EscapeAttributeValueDoubleQuoted_spec_witness :
  sampleTable (txt "dan") = false /\
  EscapeAttributeValueDoubleQuoted sampleTable (txt "&dan;" ++ UnicodeQuoteMark :: txt "xxx" ++ [UnicodeQuoteMark])
  = Ret (txt "&amp;dan;&#34;xxx&#34;").
Proof.
  split; [reflexivity|].
  apply (proj2 (proj2 (EscapeAttributeValueDoubleQuoted_spec sampleTable))).
  reflexivity.
Defined.

(** ** Ranging over a string *)

Lemma rangeString_cons b0 s1 i :
  rangeString (b0 :: s1) i
  = (i, fst (decodeRune (b0 :: s1)))
      :: rangeString (skipn (snd (decodeRune (b0 :: s1))) (b0 :: s1))
                     (i + Z.of_nat (snd (decodeRune (b0 :: s1)))).
Proof.
  cbn [rangeString decodeRune].
  destruct (code b0 <? 128); [reflexivity|].
  destruct ((code b0 <? 194) || (244 <? code b0)); [reflexivity|].
  destruct s1 as [|b1 s2]; [reflexivity|].
  destruct ((code b1 <? _) || (_ <? code b1)); [reflexivity|].
  destruct (code b0 <? 224); [reflexivity|].
  destruct s2 as [|b2 s3]; [reflexivity|].
  destruct (negb (continuation (code b2))); [reflexivity|].
  destruct (code b0 <? 240); [reflexivity|].
  destruct s3 as [|b3 s4]; [reflexivity|].
  destruct (negb (continuation (code b3))); reflexivity.
Qed.

Lemma decodeRune_width b0 s1 :
  (1 <= snd (decodeRune (b0 :: s1)) <= List.length (b0 :: s1))%nat.
Proof.
  cbn [decodeRune List.length].
  destruct (code b0 <? 128); [cbn; lia|].
  destruct ((code b0 <? 194) || (244 <? code b0)); [cbn; lia|].
  destruct s1 as [|b1 s2]; [cbn; lia|].
  destruct ((code b1 <? _) || (_ <? code b1)); [cbn; lia|].
  destruct (code b0 <? 224); [cbn; lia|].
  destruct s2 as [|b2 s3]; [cbn; lia|].
  destruct (negb (continuation (code b2))); [cbn; lia|].
  destruct (code b0 <? 240); [cbn; lia|].
  destruct s3 as [|b3 s4]; [cbn; lia|].
  destruct (negb (continuation (code b3))); cbn; lia.
Qed.

Lemma lor_lower a b : 0 <= a -> 0 <= b -> a <= Z.lor a b.
Proof.
  intros Ha Hb.
  assert (Hl : 0 <= Z.lor a b) by (apply Z.lor_nonneg; split; assumption).
  apply (Z.ldiff_le a (Z.lor a b) Hl).
  apply Z.bits_inj'. intros n Hn.
  rewrite Z.ldiff_spec, Z.lor_spec, Z.bits_0.
  destruct (Z.testbit a n), (Z.testbit b n); reflexivity.
Qed.

Lemma code_range c : 0 <= code c < 256.
Proof.
  unfold code. pose proof (N_ascii_bounded c). lia.
Qed.

(** A sequence of two or more bytes encodes a code point from U+0080 on;
    a code point below U+0080 or [RuneError] takes one byte. *)
Lemma decodeRune_wide b0 s1 :
  (snd (decodeRune (b0 :: s1)) = 1%nat /\
   (fst (decodeRune (b0 :: s1)) = code b0 /\ code b0 < 128
    \/ fst (decodeRune (b0 :: s1)) = RuneError))
  \/ 128 <= fst (decodeRune (b0 :: s1)).
Proof.
  pose proof (code_range b0) as H0.
  cbn [decodeRune].
  destruct (code b0 <? 128) eqn:E0; [apply Z.ltb_lt in E0; left; cbn; auto|].
  apply Z.ltb_ge in E0.
  destruct ((code b0 <? 194) || (244 <? code b0)) eqn:E1; [left; cbn; auto|].
  apply orb_false_iff in E1 as [E1 E1']. apply Z.ltb_ge in E1, E1'.
  destruct s1 as [|b1 s2]; [left; cbn; auto|].
  pose proof (code_range b1) as H1.
  destruct ((code b1 <? _) || (_ <? code b1)) eqn:E2; [left; cbn; auto|].
  apply orb_false_iff in E2 as [E2 E2']. apply Z.ltb_ge in E2, E2'.
  assert (Hu : code b1 <= 191)
    by (destruct (code b0 =? 237), (code b0 =? 244); lia).
  assert (Hl : 128 <= code b1 /\ (code b0 = 224 -> 160 <= code b1)
               /\ (code b0 = 240 -> 144 <= code b1)).
  { destruct (Z.eqb_spec (code b0) 224), (Z.eqb_spec (code b0) 240); lia. }
  destruct Hl as (Hl & Hl3 & Hl4). clear E2 E2'.
  destruct (code b0 <? 224) eqn:E3.
  { right. cbn [fst]. apply Z.ltb_lt in E3.
    etransitivity; [|apply lor_lower].
    - rewrite Z.shiftl_mul_pow2 by lia.
      change (Z.land (code b0) 31) with (Z.land (code b0) (Z.ones 5)).
      rewrite Z.land_ones by lia. change (2 ^ 5) with 32. change (2 ^ 6) with 64.
      Z.to_euclidean_division_equations. lia.
    - apply Z.shiftl_nonneg. apply Z.land_nonneg. now right.
    - apply Z.land_nonneg. now right. }
  apply Z.ltb_ge in E3.
  destruct s2 as [|b2 s3]; [left; cbn; auto|].
  destruct (negb (continuation (code b2))); [left; cbn; auto|].
  assert (H6 : 0 <= Z.land (code b1) 63) by (apply Z.land_nonneg; now right).
  assert (H6' : 0 <= Z.land (code b2) 63) by (apply Z.land_nonneg; now right).
  destruct (code b0 <? 240) eqn:E4.
  { right. cbn [fst]. apply Z.ltb_lt in E4.
    etransitivity; [|apply lor_lower].
    - assert (Hb1 : 32 <= Z.land (code b1) 63 \/ 1 <= Z.land (code b0) 15).
      { change (Z.land (code b1) 63) with (Z.land (code b1) (Z.ones 6)).
        change (Z.land (code b0) 15) with (Z.land (code b0) (Z.ones 4)).
        rewrite !Z.land_ones by lia. change (2 ^ 6) with 64. change (2 ^ 4) with 16.
        destruct (code b0 =? 224) eqn:E5; [apply Z.eqb_eq in E5|apply Z.eqb_neq in E5].
        - left. specialize (Hl3 E5). Z.to_euclidean_division_equations. lia.
        - right. Z.to_euclidean_division_equations. lia. }
      destruct Hb1 as [Hb1|Hb1].
      + etransitivity; [|rewrite Z.lor_comm; apply lor_lower].
        * rewrite Z.shiftl_mul_pow2 by lia. change (2 ^ 6) with 64. lia.
        * apply Z.shiftl_nonneg. assumption.
        * apply Z.shiftl_nonneg. apply Z.land_nonneg. now right.
      + etransitivity; [|apply lor_lower].
        * rewrite Z.shiftl_mul_pow2 by lia. change (2 ^ 12) with 4096. lia.
        * apply Z.shiftl_nonneg. apply Z.land_nonneg. now right.
        * apply Z.shiftl_nonneg. assumption.
    - apply Z.lor_nonneg. split; apply Z.shiftl_nonneg; [|assumption].
      apply Z.land_nonneg. now right.
    - assumption. }
  apply Z.ltb_ge in E4.
  destruct s3 as [|b3 s4]; [left; cbn; auto|].
  destruct (negb (continuation (code b3))); [left; cbn; auto|].
  right. cbn [fst].
  assert (H7 : 0 <= Z.land (code b0) 7) by (apply Z.land_nonneg; now right).
  assert (H8 : 0 <= Z.land (code b3) 63) by (apply Z.land_nonneg; now right).
  etransitivity; [|apply lor_lower].
  - etransitivity; [|apply lor_lower].
    + assert (Hb1 : 16 <= Z.land (code b1) 63 \/ 1 <= Z.land (code b0) 7).
      { change (Z.land (code b1) 63) with (Z.land (code b1) (Z.ones 6)).
        change (Z.land (code b0) 7) with (Z.land (code b0) (Z.ones 3)).
        rewrite !Z.land_ones by lia. change (2 ^ 6) with 64. change (2 ^ 3) with 8.
        destruct (code b0 =? 240) eqn:E5; [apply Z.eqb_eq in E5|apply Z.eqb_neq in E5].
        - left. specialize (Hl4 E5). Z.to_euclidean_division_equations. lia.
        - right. Z.to_euclidean_division_equations. lia. }
      destruct Hb1 as [Hb1|Hb1].
      * etransitivity; [|rewrite Z.lor_comm; apply lor_lower].
        -- rewrite Z.shiftl_mul_pow2 by lia. change (2 ^ 12) with 4096. lia.
        -- now apply Z.shiftl_nonneg.
        -- now apply Z.shiftl_nonneg.
      * etransitivity; [|apply lor_lower].
        -- rewrite Z.shiftl_mul_pow2 by lia. change (2 ^ 18) with 262144. lia.
        -- now apply Z.shiftl_nonneg.
        -- now apply Z.shiftl_nonneg.
    + apply Z.lor_nonneg. split; now apply Z.shiftl_nonneg.
    + now apply Z.shiftl_nonneg.
  - apply Z.lor_nonneg. split; [|now apply Z.shiftl_nonneg].
    apply Z.lor_nonneg. split; now apply Z.shiftl_nonneg.
  - assumption.
Qed.

Lemma text_strong_ind (P : text -> Prop) :
  (forall s, (forall t, (List.length t < List.length s)%nat -> P t) -> P s) ->
  forall s, P s.
Proof.
  intros H s. remember (List.length s) as n eqn:Hn.
  revert s Hn. induction n as [n IH] using lt_wf_ind.
  intros s ->. apply H. intros t Ht. exact (IH _ Ht t eq_refl).
Qed.

Lemma rangeString_lower s : forall i, Forall (fun p => i <= fst p) (rangeString s i).
Proof.
  induction s as [s IH] using text_strong_ind. intros i.
  destruct s as [|b0 s1]; [constructor|].
  rewrite rangeString_cons. pose proof (decodeRune_width b0 s1) as Hw.
  constructor; [cbn; lia|].
  eapply Forall_impl; [|apply IH].
  - cbn. intros p Hp. lia.
  - rewrite length_skipn. lia.
Qed.

(** The code points after the first start at index 1 or later. *)
Lemma rangeString_head b0 s1 :
  exists c R,
    rangeString (b0 :: s1) 0 = (0, c) :: R /\
    Forall (fun p => 1 <= fst p) R /\
    (c < 128 -> R = rangeString s1 1).
Proof.
  rewrite rangeString_cons. pose proof (decodeRune_width b0 s1) as Hw.
  eexists. eexists. split; [reflexivity|]. split.
  - eapply Forall_impl; [|apply rangeString_lower].
    intros p Hp. cbv beta in Hp |- *. lia.
  - intros Hc. destruct (decodeRune_wide b0 s1) as [[-> _]|H]; [reflexivity|lia].
Qed.

(** The code points after the one at index 1 start at index 2 or later. *)
Lemma rangeString_second b1 s2 :
  exists c R,
    rangeString (b1 :: s2) 1 = (1, c) :: R /\ Forall (fun p => 2 <= fst p) R.
Proof.
  rewrite rangeString_cons. pose proof (decodeRune_width b1 s2) as Hw.
  eexists. eexists. split; [reflexivity|].
  eapply Forall_impl; [|apply rangeString_lower].
  intros p Hp. cbv beta in Hp |- *. lia.
Qed.

(** ** The validator *)

Lemma cssLoop_cssRun runes st :
  cssLoop runes st = match cssRun runes st with Some _ => true | None => false end.
Proof.
  revert st. induction runes as [|[i c] runes IH]; intros st; [reflexivity|].
  cbn [cssLoop cssRun]. destruct (cssBody i c st); [apply IH|reflexivity].
Qed.

Lemma cssBody_first i char st st' :
  cssBody i char st = Some st' -> first st' = if i =? 0 then char else first st.
Proof.
  unfold cssBody.
  repeat match goal with
         | |- context [if ?b then _ else _] =>
             lazymatch b with
             | (i =? 0) => fail
             | _ => destruct b
             end
         end;
    intros H; try discriminate H; injection H as <-; reflexivity.
Qed.


Lemma cssBody_plain i char st :
  plainRune char = true ->
  (i = 0 -> between "0" "9" char = false) ->
  (i = 1 -> first st = code "-" ->
   char <> code "-" /\ between "0" "9" char = false) ->
  exists st', cssBody i char st = Some st'.
Proof.
  intros Hp H0 H1. unfold cssBody.
  destruct (Z.eqb_spec i 0) as [->|Hi0].
  - rewrite (H0 eq_refl). cbn [andb]. change (0 =? 1) with false. cbn [andb].
    unfold plainRune in Hp.
    destruct (char >=? 160); [eauto|].
    destruct ((char =? code "-") || (char =? code "_")) eqn:E; [eauto|].
    destruct (between "a" "z" char); [destruct (char >? code "f"); eauto|].
    destruct (between "A" "Z" char); [destruct (char >? code "F"); eauto|].
    apply orb_false_iff in E as [E1 E2].
    rewrite E1, E2, (H0 eq_refl) in Hp. discriminate Hp.
  - cbn [andb].
    assert (Hstart : (i =? 1) && (first st =? code "-")
                     && ((char =? code "-") || between "0" "9" char) = false).
    { destruct (Z.eqb_spec i 1) as [Hi1|]; [|reflexivity].
      destruct (Z.eqb_spec (first st) (code "-")) as [Hf|]; [|reflexivity].
      destruct (H1 Hi1 Hf) as [Hc Hd]. rewrite Hd.
      destruct (Z.eqb_spec char (code "-")); [contradiction|reflexivity]. }
    rewrite Hstart. unfold plainRune in Hp.
    destruct (char >=? 160); [eauto|].
    destruct ((char =? code "-") || (char =? code "_")) eqn:E; [eauto|].
    destruct (between "a" "z" char); [destruct (char >? code "f"); eauto|].
    destruct (between "A" "Z" char); [destruct (char >? code "F"); eauto|].
    destruct (between "0" "9" char); [eauto|].
    apply orb_false_iff in E as [E1 E2]. rewrite E1, E2 in Hp. discriminate Hp.
Qed.

Lemma cssRun_plain_late runes st :
  Forall (fun p => 2 <= fst p /\ plainRune (snd p) = true) runes ->
  exists st', cssRun runes st = Some st'.
Proof.
  revert st. induction runes as [|[i c] runes IH]; intros st H; [cbn; eauto|].
  inversion H as [|p l [Hi Hp] Hrest]; subst. cbn [fst snd] in *.
  destruct (cssBody_plain i c st Hp) as [st' Hst']; [lia|lia|].
  cbn [cssRun]. rewrite Hst'. apply IH. assumption.
Qed.

Lemma cssRun_plain_other runes st :
  first st <> code "-" ->
  Forall (fun p => 1 <= fst p /\ plainRune (snd p) = true) runes ->
  exists st', cssRun runes st = Some st'.
Proof.
  revert st. induction runes as [|[i c] runes IH]; intros st Hf H; [cbn; eauto|].
  inversion H as [|p l [Hi Hp] Hrest]; subst. cbn [fst snd] in *.
  destruct (cssBody_plain i c st Hp) as [st' Hst']; [lia|tauto|].
  cbn [cssRun]. rewrite Hst'. apply IH; [|assumption].
  rewrite (cssBody_first _ _ _ _ Hst').
  replace (i =? 0) with false by (symmetry; apply Z.eqb_neq; lia). assumption.
Qed.

Lemma len_cons_eqb c s : (len (c :: s) =? 0) = false.
Proof.
  apply Z.eqb_neq. rewrite len_cons. pose proof (len_nonneg s). lia.
Qed.

Lemma cssBody_digit_first char st :
  between "0" "9" char = true -> cssBody 0 char st = None.
Proof.
  intros H. unfold cssBody. change (0 =? 0) with true. cbv iota.
  now rewrite H.
Qed.

Lemma cssBody_hyphen_second char st :
  first st = code "-" ->
  char = code "-" \/ between "0" "9" char = true ->
  cssBody 1 char st = None.
Proof.
  intros Hf Hc. unfold cssBody. change (1 =? 0) with false. cbv iota.
  cbn [andb]. change (1 =? 1) with true. rewrite Hf, Z.eqb_refl. cbn [andb].
  destruct Hc as [->|Hd]; [now rewrite Z.eqb_refl|].
  rewrite Hd. now rewrite orb_true_r.
Qed.

Lemma codePoints_cons b0 s1 c R :
  rangeString (b0 :: s1) 0 = (0, c) :: R ->
  codePoints (b0 :: s1) = c :: map snd R.
Proof.
  intros H. unfold codePoints. now rewrite H.
Qed.

(** C6: the empty string is rejected; so is an input whose first code
    point is an ASCII digit, and one whose first code point is a hyphen
    and whose second is a hyphen or an ASCII digit; a non-empty input
    that does not start in one of these ways and is made of code points
    from U+00A0 on, hyphens, underscores and ASCII letters and digits is
    accepted. *)
Theorem IsValidCss3Identifier_start_rules :
  IsValidCss3Identifier [] = false /\
  (forall val c cs,
      codePoints val = c :: cs -> between "0" "9" c = true ->
      IsValidCss3Identifier val = false) /\
  (forall val c cs,
      codePoints val = code "-" :: c :: cs ->
      c = code "-" \/ between "0" "9" c = true ->
      IsValidCss3Identifier val = false) /\
  (forall val,
      val <> [] ->
      (forall c cs, codePoints val = c :: cs -> between "0" "9" c = false) ->
      (forall c cs, codePoints val = code "-" :: c :: cs ->
                    c <> code "-" /\ between "0" "9" c = false) ->
      Forall (fun c => plainRune c = true) (codePoints val) ->
      IsValidCss3Identifier val = true) /\
  IsValidCss3Identifier (txt "abc123DEF") = true /\
  IsValidCss3Identifier (txt "--lua") = false /\
  IsValidCss3Identifier (txt "-1a") = false /\
  IsValidCss3Identifier (txt "2") = false.
Proof.
  split; [reflexivity|].
  split; [|split; [|split; [|repeat split; reflexivity]]].
  - intros [|b0 s1] c cs Hcp Hd; [discriminate Hcp|].
    destruct (rangeString_head b0 s1) as (c1 & R & HR & _ & _).
    rewrite (codePoints_cons _ _ _ _ HR) in Hcp. injection Hcp as -> _.
    unfold IsValidCss3Identifier. rewrite len_cons_eqb, HR. cbn [cssLoop].
    now rewrite cssBody_digit_first.
  - intros [|b0 s1] c cs Hcp Hc; [discriminate Hcp|].
    destruct (rangeString_head b0 s1) as (c1 & R & HR & _ & HR1).
    rewrite (codePoints_cons _ _ _ _ HR) in Hcp. injection Hcp as -> Hcp.
    specialize (HR1 ltac:(cbn; lia)). subst R.
    destruct s1 as [|b1 s2]; [discriminate Hcp|].
    destruct (rangeString_second b1 s2) as (c2 & R2 & HR2 & _).
    rewrite HR2 in Hcp. cbn [map snd] in Hcp. injection Hcp as -> _.
    unfold IsValidCss3Identifier. rewrite len_cons_eqb, HR, HR2. cbn [cssLoop].
    change (cssBody 0 (code "-") lexer0) with (Some (mkLexer (code "-") false false 0)).
    cbv iota. now rewrite cssBody_hyphen_second.
  - intros [|b0 s1] Hne H1 H2 Hall; [contradiction|].
    destruct (rangeString_head b0 s1) as (c1 & R & HR & HRi & HR1).
    pose proof (codePoints_cons _ _ _ _ HR) as Hcp. rewrite Hcp in Hall.
    inversion Hall as [|x l Hp1 Hrest]; subst.
    unfold IsValidCss3Identifier. rewrite len_cons_eqb, HR, cssLoop_cssRun.
    cbn [cssRun].
    destruct (cssBody_plain 0 c1 lexer0 Hp1) as [st1 Hst1];
      [intros _; exact (H1 _ _ Hcp)|intros H; discriminate H|].
    rewrite Hst1. pose proof (cssBody_first _ _ _ _ Hst1) as Hf1.
    change (0 =? 0) with true in Hf1. cbv iota in Hf1.
    rewrite Forall_map in Hrest.
    destruct (Z.eq_dec c1 (code "-")) as [->|Hc1].
    + specialize (HR1 ltac:(cbn; lia)). subst R.
      destruct s1 as [|b1 s2]; [reflexivity|].
      destruct (rangeString_second b1 s2) as (c2 & R2 & HR2 & HR2i).
      rewrite HR2 in *. cbn [map snd] in Hcp.
      inversion Hrest as [|x l Hp2 Hrest2]; subst. cbn [snd] in Hp2.
      cbn [cssRun].
      destruct (cssBody_plain 1 c2 st1 Hp2) as [st2 Hst2];
        [intros H; discriminate H|intros _ _; exact (H2 _ _ Hcp)|].
      rewrite Hst2.
      destruct (cssRun_plain_late R2 st2) as [st' ->]; [|reflexivity].
      apply Forall_forall. intros p Hp.
      rewrite Forall_forall in HR2i, Hrest2. auto.
    + destruct (cssRun_plain_other R st1) as [st' ->]; [congruence| |reflexivity].
      apply Forall_forall. intros p Hp.
      rewrite Forall_forall in HRi, Hrest. auto.
Qed.

(** C6 on the input ["a-b"]. *)
Lemma IsValidCss3Identifier_start_rules_witness :
  IsValidCss3Identifier (txt "a-b") = true.
Proof.
  apply (proj1 (proj2 (proj2 (proj2 IsValidCss3Identifier_start_rules)))).
  - discriminate.
  - intros c cs H. injection H as <- _. reflexivity.
  - intros c cs H. discriminate H.
  - repeat constructor.
Defined.

(** ** Appending ASCII bytes *)

Lemma decodeRune_app b0 s1 b more :
  code b < 128 ->
  decodeRune (b0 :: s1 ++ b :: more) = decodeRune (b0 :: s1).
Proof.
  intros Hb.
  assert (Hc : continuation (code b) = false).
  { unfold continuation. apply andb_false_iff. left. apply Z.leb_gt. lia. }
  cbn [decodeRune].
  destruct (code b0 <? 128); [reflexivity|].
  destruct ((code b0 <? 194) || (244 <? code b0)); [reflexivity|].
  destruct s1 as [|b1 s2].
  { cbn [app].
    replace (code b <? (if code b0 =? 224 then 160
                        else if code b0 =? 240 then 144 else 128)) with true
      by (symmetry; apply Z.ltb_lt;
          destruct (code b0 =? 224), (code b0 =? 240); lia).
    reflexivity. }
  cbn [app].
  destruct ((code b1 <? _) || (_ <? code b1)); [reflexivity|].
  destruct (code b0 <? 224); [reflexivity|].
  destruct s2 as [|b2 s3]; [cbn [app]; now rewrite Hc|].
  cbn [app].
  destruct (negb (continuation (code b2))); [reflexivity|].
  destruct (code b0 <? 240); [reflexivity|].
  destruct s3 as [|b3 s4]; [cbn [app]; now rewrite Hc|].
  reflexivity.
Qed.

Lemma rangeString_app (s : text) b more :
  code b < 128 ->
  forall i,
    rangeString (s ++ b :: more) i
    = rangeString s i ++ rangeString (b :: more) (i + len s).
Proof.
  intros Hb. induction s as [s IH] using text_strong_ind. intros i.
  destruct s as [|b0 s1].
  { change (rangeString [] i) with (@nil (Z * Z)). cbn [app].
    now rewrite len_nil, Z.add_0_r. }
  change ((b0 :: s1) ++ b :: more) with (b0 :: s1 ++ b :: more).
  rewrite (rangeString_cons b0 (s1 ++ b :: more)), (rangeString_cons b0 s1).
  rewrite (decodeRune_app _ _ _ _ Hb).
  pose proof (decodeRune_width b0 s1) as Hw.
  set (w := snd (decodeRune (b0 :: s1))) in *.
  cbn [app]. f_equal.
  change (b0 :: s1 ++ b :: more) with ((b0 :: s1) ++ b :: more).
  rewrite skipn_app.
  replace (w - List.length (b0 :: s1))%nat with 0%nat by lia.
  cbn [skipn]. rewrite IH by (rewrite length_skipn; lia).
  do 2 f_equal. rewrite len_skipn. unfold len. lia.
Qed.

Lemma rangeString_snoc s b :
  code b < 128 ->
  rangeString (s ++ [b]) 0 = rangeString s 0 ++ [(len s, code b)].
Proof.
  intros Hb. rewrite (rangeString_app _ _ _ Hb). f_equal.
  cbn [rangeString]. now replace (code b <? 128) with true
    by (symmetry; now apply Z.ltb_lt).
Qed.


(** ** Runs of the validator *)

Lemma cssRun_app r1 r2 st :
  cssRun (r1 ++ r2) st
  = match cssRun r1 st with
    | Some st' => cssRun r2 st'
    | None => None
    end.
Proof.
  revert st. induction r1 as [|[i c] r1 IH]; intros st; [reflexivity|].
  cbn [app cssRun]. destruct (cssBody i c st); [apply IH|reflexivity].
Qed.

Lemma cssBody_backslash i st :
  cssBody i backslash st
  = Some (mkLexer (if i =? 0 then backslash else first st) true true 0).
Proof.
  unfold cssBody.
  destruct (i =? 0), (i =? 1), (first st =? code "-"), (hexCount st >? 6);
    reflexivity.
Qed.









(** C10: when the validator gets through a prefix, it accepts the prefix
    followed by one backslash, and ends with the escape still open; so
    ["\"] and ["a\"] are valid. *)
Theorem IsValidCss3Identifier_trailing_backslash :
  (forall prefix st,
      cssRun (rangeString prefix 0) lexer0 = Some st ->
      IsValidCss3Identifier (prefix ++ txt "\") = true /\
      exists st',
        cssRun (rangeString (prefix ++ txt "\") 0) lexer0 = Some st' /\
        wasSlash st' = true /\ inEscape st' = true) /\
  (forall prefix,
      IsValidCss3Identifier prefix = true ->
      IsValidCss3Identifier (prefix ++ txt "\") = true) /\
  IsValidCss3Identifier (txt "\") = true /\
  IsValidCss3Identifier (txt "a\") = true.
Proof.
  assert (Hmain : forall prefix st,
             cssRun (rangeString prefix 0) lexer0 = Some st ->
             IsValidCss3Identifier (prefix ++ txt "\") = true /\
             exists st',
               cssRun (rangeString (prefix ++ txt "\") 0) lexer0 = Some st' /\
               wasSlash st' = true /\ inEscape st' = true).
  { intros prefix st Hrun.
    assert (Hr : cssRun (rangeString (prefix ++ txt "\") 0) lexer0
                 = Some (mkLexer (if len prefix =? 0 then backslash else first st)
                                 true true 0)).
    { change (txt "\") with ["\"%char].
      rewrite rangeString_snoc by (cbn; lia).
      rewrite cssRun_app, Hrun. cbn [cssRun].
      change (code "\") with backslash. now rewrite cssBody_backslash. }
    split.
    - unfold IsValidCss3Identifier.
      replace (len (prefix ++ txt "\") =? 0) with false.
      + now rewrite cssLoop_cssRun, Hr.
      + symmetry. apply Z.eqb_neq. rewrite len_app.
        pose proof (len_nonneg prefix). change (len (txt "\")) with 1. lia.
    - eexists. split; [exact Hr|]. split; reflexivity. }
  split; [exact Hmain|]. split; [|split; reflexivity].
  intros prefix H. unfold IsValidCss3Identifier in H.
  destruct (len prefix =? 0); [discriminate H|].
  rewrite cssLoop_cssRun in H.
  destruct (cssRun (rangeString prefix 0) lexer0) as [st|] eqn:Hrun;
    [|discriminate H].
  exact (proj1 (Hmain _ _ Hrun)).
Qed.

(** C10 on the prefix ["a"]. *)
Lemma IsValidCss3Identifier_trailing_backslash_witness :
  IsValidCss3Identifier (txt "a") = true /\
  IsValidCss3Identifier (txt "a" ++ txt "\") = true.
Proof.
  split; [reflexivity|].
  apply (proj1 (proj2 IsValidCss3Identifier_trailing_backslash) (txt "a")).
  reflexivity.
Defined.

(** C4 on ["&a b;"], whose first candidate fails on the space. *)
Lemma Next_skips_and_resumes_witness :
  ampLoop (txt "&a b;") 0 = ampLoop (txt "a b;") 1.
Proof.
  apply (proj1 (proj2 (proj2 Next_skips_and_resumes)) (txt "a") " "%char (txt "b;") 0);
    [reflexivity|reflexivity|discriminate].
Defined.

Example IsValidAttributeName_test_table :
  map (fun s => IsValidAttributeName (txt s))
      ["name"; "type"; "data-valid"; "⌘"; "example"]%string
  = repeat true 5 /\
  map IsValidAttributeName
      [txt ""; txt " "; chars [9]%nat; chars [10]%nat; chars [13; 10]%nat;
       chars [12]%nat; txt "this is invalid";
       txt "not-" ++ chars [0]%nat ++ txt "-valid";
       txt "i-am-" ++ chars [34]%nat ++ txt "happy" ++ chars [34]%nat;
       txt "i-am-'happy'"; txt "<input>"; txt "either/or"; txt "this /";
       txt "mine=yours"; chars [7]%nat; chars [239; 191; 191]%nat;
       txt "not valid"]
  = repeat false 17.
Proof. split; vm_compute; reflexivity. Qed.

Example isUnicodeNonCharacter_test_table :
  map isUnicodeNonCharacter [97; 10; 0x1234; 0x559c] = repeat false 4 /\
  map isUnicodeNonCharacter [0xfdd0; 0xfdd1; 0xfdef; 0xfdee; 0xfffe; 0xffff]
  = repeat true 6.
Proof. split; reflexivity. Qed.

Example IsValidAttributeValue_test_table :
  map (fun s => IsValidAttributeValue sampleTable (txt s))
      ["data"; ""; "some other &#xBEEF;"; "And &#1010; decimal";
       "And &amp; is fine"; "⌘"]%string
  = repeat (Ret true) 6 /\
  IsValidAttributeValue sampleTable (txt "&funky;") = Ret false /\
  map (fun s => IsValidAttributeValueUnquoted sampleTable (txt s))
      ["yes"; "true"; "email"; "7"; "wut?"; "⌘"]%string
  = repeat (Ret true) 6 /\
  map (IsValidAttributeValueUnquoted sampleTable)
      [txt ""; txt "not this"; chars [34]%nat ++ txt "wut?" ++ chars [34]%nat]
  = repeat (Ret false) 3 /\
  map (fun s => IsValidAttributeValueSingleQuoted sampleTable (txt s))
      ["this is valid"; "⌘"; "yes"; "this 'is not' valid"; "'no'"]%string
  = [Ret true; Ret true; Ret true; Ret false; Ret false] /\
  map (IsValidAttributeValueDoubleQuoted sampleTable)
      [txt "this is valid"; txt "⌘"; txt "yes";
       txt "this " ++ chars [34]%nat ++ txt "is not" ++ chars [34]%nat ++ txt " valid"]
  = [Ret true; Ret true; Ret true; Ret false].
Proof. repeat split; vm_compute; reflexivity. Qed.

Example IsValidHTMLTagName_test_table :
  map (fun s => IsValidHTMLTagName (txt s))
      ["a"; "input"; "html"; "BODY"; "pre"]%string
  = repeat true 5 /\
  map IsValidHTMLTagName [txt "x-tag"; txt " mine " ++ chars [10]%nat; txt "⌘"]
  = repeat false 3.
Proof. split; vm_compute; reflexivity. Qed.

Example IsValidHtml4IdValue_test_table :
  map (fun s => IsValidHtml4IdValue (txt s))
      [""; "a b"; "1abc"; "☁"; "abc"; "a"; "a9"; "A-"; "a_b"; "a:b"; "a.b.c.";
       "introduction"; "last remarks"]%string
  = [false; false; false; false; true; true; true; true; true; true; true;
     true; false] /\
  map (fun s => IsValidHtml5IdValue (txt s))
      [""; "a b"; "1abc"; "☁"; "abc"; "a"; "a9"; "A-"; "a_b"; "a:b"; "a.b.c.";
       "introduction"; "last remarks"]%string
  = [false; false; true; true; true; true; true; true; true; true; true;
     true; false].
Proof. split; vm_compute; reflexivity. Qed.

(** ** Code points and bytes

    The predicates below look at code points; on ASCII they can be read
    off the bytes, because every byte of a sequence that does not decode
    to an ASCII code point is 128 or more. *)

Lemma decodeRune_ascii b0 s1 :
  code b0 < 128 -> decodeRune (b0 :: s1) = (code b0, 1%nat).
Proof.
  intros H. cbn [decodeRune].
  now replace (code b0 <? 128) with true by (symmetry; now apply Z.ltb_lt).
Qed.

Lemma decodeRune_high_bytes b0 s1 :
  128 <= code b0 ->
  forallb (fun b => 128 <=? code b)
          (firstn (snd (decodeRune (b0 :: s1))) (b0 :: s1)) = true.
Proof.
  intros H0. assert (E0 : (128 <=? code b0) = true) by now apply Z.leb_le.
  cbn [decodeRune].
  destruct (code b0 <? 128); [cbn; now rewrite E0|].
  destruct ((code b0 <? 194) || (244 <? code b0)); [cbn; now rewrite E0|].
  destruct s1 as [|b1 s2]; [cbn; now rewrite E0|].
  destruct ((code b1 <? _) || (_ <? code b1)) eqn:E1; [cbn; now rewrite E0|].
  apply orb_false_iff in E1 as [E1 _]. apply Z.ltb_ge in E1.
  assert (H1 : (128 <=? code b1) = true).
  { apply Z.leb_le. destruct (code b0 =? 224), (code b0 =? 240); lia. }
  destruct (code b0 <? 224); [cbn; now rewrite E0, H1|].
  destruct s2 as [|b2 s3]; [cbn; now rewrite E0|].
  destruct (continuation (code b2)) eqn:E2; cbn [negb]; [|cbn; now rewrite E0].
  assert (H2 : (128 <=? code b2) = true)
    by (unfold continuation in E2; now apply andb_prop in E2 as [E2 _]).
  destruct (code b0 <? 240); [cbn; now rewrite E0, H1, H2|].
  destruct s3 as [|b3 s4]; [cbn; now rewrite E0|].
  destruct (continuation (code b3)) eqn:E3; cbn [negb]; [|cbn; now rewrite E0].
  assert (H3 : (128 <=? code b3) = true)
    by (unfold continuation in E3; now apply andb_prop in E3 as [E3 _]).
  cbn. now rewrite E0, H1, H2, H3.
Qed.

Lemma existsb_high (P : Z -> bool) v l :
  (forall c, 128 <= c -> P c = v) ->
  forallb (fun b => 128 <=? code b) l = true -> l <> [] ->
  existsb (fun b => P (code b)) l = v.
Proof.
  intros HP Hl Hne. destruct l as [|b l]; [contradiction|].
  cbn in Hl. apply andb_prop in Hl as [Hb Hl]. apply Z.leb_le in Hb.
  cbn [existsb]. rewrite (HP _ Hb). destruct v; [reflexivity|].
  cbn [orb]. clear Hne Hb b. induction l as [|b l IH]; [reflexivity|].
  cbn in Hl. apply andb_prop in Hl as [Hb Hl]. apply Z.leb_le in Hb.
  cbn [existsb]. now rewrite (HP _ Hb), IH.
Qed.

(** A predicate that does not tell the code points from U+0080 on apart
    holds of some code point exactly when it holds of some byte. *)
Lemma existsb_rangeString (P : Z -> bool) v :
  (forall c, 128 <= c -> P c = v) ->
  forall (s : text) i,
    existsb (fun p => P (snd p)) (rangeString s i)
    = existsb (fun b => P (code b)) s.
Proof.
  intros HP s. induction s as [s IH] using text_strong_ind. intros i.
  destruct s as [|b0 s1]; [reflexivity|].
  pose proof (decodeRune_width b0 s1) as Hw.
  replace (existsb (fun b => P (code b)) (b0 :: s1))
    with (existsb (fun b => P (code b))
            (firstn (snd (decodeRune (b0 :: s1))) (b0 :: s1)
               ++ skipn (snd (decodeRune (b0 :: s1))) (b0 :: s1)))
    by now rewrite firstn_skipn.
  rewrite rangeString_cons, existsb_app.
  cbn [existsb snd]. rewrite IH by (rewrite length_skipn; lia).
  f_equal.
  destruct (Z.lt_ge_cases (code b0) 128) as [Hlt|Hge].
  - rewrite (decodeRune_ascii _ _ Hlt). cbn. now rewrite orb_false_r.
  - rewrite (existsb_high P v); [|assumption|now apply decodeRune_high_bytes|].
    + apply HP. destruct (decodeRune_wide b0 s1) as [[_ [[_ H]| ->]]|H];
        [lia|unfold RuneError; lia|assumption].
    + destruct (snd (decodeRune (b0 :: s1))); [lia|discriminate].
Qed.

Lemma indexWhere_found f (s : text) :
  (indexWhere f (rangeString s 0) >=? 0)
  = existsb (fun p => f (snd p)) (rangeString s 0).
Proof.
  pose proof (rangeString_lower s 0) as Hl.
  induction (rangeString s 0) as [|[i c] runes IH]; [reflexivity|].
  inversion Hl as [|p l Hi Hrest]; subst. cbn [fst] in Hi.
  cbn [indexWhere existsb snd]. destruct (f c); [|now apply IH].
  apply Z.geb_le. lia.
Qed.

Lemma code_inj a b : code a = code b -> a = b.
Proof.
  unfold code. intros H. apply N2Z.inj in H.
  rewrite <- (ascii_N_embedding a), <- (ascii_N_embedding b). now f_equal.
Qed.

Lemma code_eqb a b : (code a =? code b) = Ascii.eqb a b.
Proof.
  destruct (Ascii.eqb_spec a b) as [->|Hne]; [apply Z.eqb_refl|].
  apply Z.eqb_neq. intros H. apply Hne. now apply code_inj.
Qed.

Lemma rangeString_all_ascii (s : text) :
  forallb (fun b => code b <? 128) s = true ->
  forall i, map snd (rangeString s i) = map code s.
Proof.
  induction s as [|b s IH]; intros H i; [reflexivity|].
  cbn in H. apply andb_prop in H as [Hb Hs].
  cbn [rangeString]. rewrite Hb. cbn [map snd]. now rewrite IH.
Qed.

Lemma existsb_through_map {A B} (f : B -> bool) (g : A -> B) l :
  existsb f (map g l) = existsb (fun x => f (g x)) l.
Proof.
  induction l as [|x l IH]; [reflexivity|]. cbn. now rewrite IH.
Qed.

Lemma existsb_same {A} (f g : A -> bool) l :
  (forall x, f x = g x) -> existsb f l = existsb g l.
Proof.
  intros H. induction l as [|x l IH]; [reflexivity|]. cbn. now rewrite H, IH.
Qed.

(** With ASCII [chars], [ContainsAny] is a test on the bytes of [s]. *)
Lemma ContainsAny_bytes s chars :
  forallb (fun b => code b <? 128) chars = true ->
  ContainsAny s chars = existsb (fun b => existsb (Ascii.eqb b) chars) s.
Proof.
  intros Hc.
  assert (Hm : forall c, existsb (fun m => c =? snd m) (rangeString chars 0)
                         = existsb (fun m => c =? code m) chars).
  { intros c. rewrite <- (existsb_through_map (fun x => c =? x) snd).
    rewrite (rangeString_all_ascii _ Hc).
    now rewrite (existsb_through_map (fun x => c =? x) code). }
  unfold ContainsAny, IndexAny.
  destruct chars as [|m chars].
  { cbn. clear. induction s as [|b s IH]; [reflexivity|]. cbn. exact IH. }
  replace (0 <? len (m :: chars)) with true
    by (symmetry; apply Z.ltb_lt; rewrite len_cons; pose proof (len_nonneg chars); lia).
  rewrite indexWhere_found.
  rewrite (existsb_rangeString
             (fun c => existsb (fun m0 => c =? snd m0) (rangeString (m :: chars) 0))
             false).
  - apply existsb_same. intros b. rewrite Hm. apply existsb_same. intros m0.
    apply code_eqb.
  - intros c Hc'. rewrite Hm. apply not_true_is_false. intros H.
    apply existsb_exists in H as [m0 [Hin H]]. apply Z.eqb_eq in H.
    rewrite forallb_forall in Hc. specialize (Hc _ Hin). apply Z.ltb_lt in Hc. lia.
Qed.

(** ** More on the scanner and the ambiguous-ampersand engine *)

Lemma refs_count (rest : text) :
  forall i, 3 * Z.of_nat (List.length (refs rest i)) <= len rest.
Proof.
  induction rest as [rest IH] using text_strong_ind. intros i.
  destruct rest as [|c rest]; [cbn; lia|].
  assert (Hrec : 3 * Z.of_nat (List.length (refs rest (i + 1))) <= len (c :: rest)).
  { rewrite len_cons. specialize (IH rest ltac:(cbn; lia) (i + 1)). lia. }
  cbn [refs]. destruct (Ascii.eqb c UnicodeAmpersand); [|assumption].
  destruct (parseName rest) as [[|n ame]|] eqn:Hp; try assumption.
  apply parseName_Some in Hp as [Hal [post ->]].
  rewrite (refs_skip_name _ _ _ Hal). cbn [List.length].
  specialize (IH post).
  assert (Hlt : (List.length post
                 < List.length (c :: (n :: ame) ++ UnicodeSemicolon :: post))%nat)
    by (cbn [List.length]; rewrite length_app; cbn [List.length]; lia).
  specialize (IH Hlt (i + 1 + len (n :: ame) + 1)).
  unfold len in *. cbn [List.length] in *. rewrite length_app.
  cbn [List.length]. lia.
Qed.

Lemma candidate_has_both val i name :
  candidate val i name -> In UnicodeAmpersand val /\ In UnicodeSemicolon val.
Proof.
  intros (_ & _ & _ & post & Hk).
  assert (Hsub : forall x, In x (skipn (Z.to_nat i) val) -> In x val).
  { intros x Hx. rewrite <- (firstn_skipn (Z.to_nat i) val).
    apply in_or_app. now right. }
  rewrite Hk in Hsub. split; apply Hsub.
  - now left.
  - right. apply in_or_app. right. now left.
Qed.

Lemma existsb_filter_nil {A} (f : A -> bool) l :
  existsb f l = false <-> filter f l = [].
Proof.
  induction l as [|x l IH]; [cbn; tauto|].
  cbn. destruct (f x); cbn; [split; discriminate|exact IH].
Qed.

(** The names of the candidates are the same after the double quotes are
    replaced: no candidate is made or lost. *)
Lemma parseName_Replace rest :
  parseName (Replace rest UnicodeQuoteMark htmlQuot) = parseName rest.
Proof.
  unfold Replace. induction rest as [|c rest IH]; [reflexivity|].
  cbn [flat_map]. destruct (Ascii.eqb_spec c UnicodeQuoteMark) as [->|Hc].
  - reflexivity.
  - cbn [app parseName]. now rewrite IH.
Qed.

Lemma refs_Replace s :
  forall i j,
    map fst (refs (Replace s UnicodeQuoteMark htmlQuot) i) = map fst (refs s j).
Proof.
  induction s as [|c s IH]; intros i j; [reflexivity|].
  change (Replace (c :: s) UnicodeQuoteMark htmlQuot)
    with ((if Ascii.eqb c UnicodeQuoteMark then htmlQuot else [c])
            ++ Replace s UnicodeQuoteMark htmlQuot).
  destruct (Ascii.eqb_spec c UnicodeQuoteMark) as [->|Hc].
  - cbn. apply IH.
  - cbn [app refs]. destruct (Ascii.eqb c UnicodeAmpersand); [|apply IH].
    rewrite parseName_Replace.
    destruct (parseName s) as [[|n ame]|]; try apply IH.
    cbn [map fst]. f_equal. apply IH.
Qed.

Section EngineExtras.

Variable IsCharacterReferenceName : text -> bool.

Local Abbreviation isRef := IsCharacterReferenceName.
Local Abbreviation amb := (ambiguous IsCharacterReferenceName).

Lemma existsb_amb_names ms :
  existsb amb ms = existsb (fun n => negb (isRef n)) (map fst ms).
Proof.
  induction ms as [|m ms IH]; [reflexivity|]. cbn. now rewrite IH.
Qed.

Lemma escaped_fixed_iff val :
  escaped isRef val = val <-> filter amb (refsFrom val (-1)) = [].
Proof.
  split; [|apply escaped_unambiguous].
  intros H. pose proof (escaped_length isRef val) as Hl. rewrite H in Hl.
  destruct (filter amb (refsFrom val (-1))); [reflexivity|].
  cbn [List.length] in Hl. lia.
Qed.

Lemma escaped_clean val :
  isRef (txt "amp") = true ->
  filter amb (refsFrom (escaped isRef val) (-1)) = [].
Proof.
  intros Hamp. apply escaped_fixed_iff. now apply escaped_idempotent.
Qed.

(** X1: successive calls of [Next] on a fresh scanner return every
    candidate of the text exactly once, in increasing order of index, and
    then [-1]; there are at most [len(val) / 3] of them. *)
Theorem scanAll_enumerates (val : text) :
  exists ms,
    scanAll (budget val) (NewNamedReferenceScanner val) = Ret ms /\
    (forall name i, In (name, i) ms <-> candidate val i name) /\
    ascending 0 (len val) ms /\
    3 * Z.of_nat (List.length ms) <= len val.
Proof.
  exists (refsFrom val (-1)).
  split; [apply scanAll_refsFrom; [lia|apply refsFrom_length]|].
  split; [|split].
  - intros name i. rewrite refsFrom_candidate by lia. split; [tauto|].
    intros Hc. split; [assumption|]. destruct Hc as [Hi _]. lia.
  - apply (refsFrom_ascending val (-1)). lia.
  - apply (refs_count val 0).
Qed.

(** X2: when ["amp"] is in the table, the output of
    [EscapeAmbiguousAmpersands] has no ambiguous ampersand:
    [HasAmbiguousAmpersand] returns [false] on it and
    [IsValidAttributeValue] returns [true]. *)
Theorem EscapeAmbiguousAmpersands_clean (t : text) :
  isRef (txt "amp") = true ->
  exists t',
    EscapeAmbiguousAmpersands isRef t = Ret t' /\
    HasAmbiguousAmpersand isRef t' = Ret false /\
    IsValidAttributeValue isRef t' = Ret true.
Proof.
  intros Hamp. exists (escaped isRef t).
  assert (Hhas : HasAmbiguousAmpersand isRef (escaped isRef t) = Ret false).
  { rewrite HasAmbiguousAmpersand_refs. f_equal.
    apply existsb_filter_nil. now apply escaped_clean. }
  split; [apply EscapeAmbiguousAmpersands_escaped|].
  split; [exact Hhas|]. unfold IsValidAttributeValue. now rewrite Hhas.
Qed.

(** X3: [EscapeAmbiguousAmpersands] returns its input unchanged exactly
    when [HasAmbiguousAmpersand] returns [false] on it. *)
Theorem EscapeAmbiguousAmpersands_identity_iff (val : text) :
  EscapeAmbiguousAmpersands isRef val = Ret val
  <-> HasAmbiguousAmpersand isRef val = Ret false.
Proof.
  rewrite EscapeAmbiguousAmpersands_escaped, HasAmbiguousAmpersand_refs.
  split; intros H; injection H as H; f_equal.
  - apply existsb_filter_nil. now apply escaped_fixed_iff.
  - apply escaped_fixed_iff. now apply existsb_filter_nil.
Qed.

End EngineExtras.

Lemma existsb_false_iff {A} (f : A -> bool) l :
  existsb f l = false <-> forall x, In x l -> f x = false.
Proof.
  split.
  - intros H x Hin. apply not_true_is_false. intros Hx.
    assert (Ht : existsb f l = true) by (apply existsb_exists; eauto).
    congruence.
  - intros H. apply not_true_is_false. intros Ht.
    apply existsb_exists in Ht as [x [Hin Hx]]. rewrite (H x Hin) in Hx.
    discriminate.
Qed.

Lemma ContainsAny_false_iff s chars :
  forallb (fun b => code b <? 128) chars = true ->
  ContainsAny s chars = false <-> forall c, In c s -> ~ In c chars.
Proof.
  intros Hc. rewrite (ContainsAny_bytes _ _ Hc), existsb_false_iff.
  split; intros H c Hin.
  - specialize (H c Hin). rewrite existsb_false_iff in H.
    intros Hin'. specialize (H c Hin'). now rewrite Ascii.eqb_refl in H.
  - apply existsb_false_iff. intros m Hm.
    destruct (Ascii.eqb_spec c m) as [->|]; [|reflexivity].
    exfalso. exact (H _ Hin Hm).
Qed.

Lemma refsFrom_start val : refsFrom val (-1) = refs val 0.
Proof. reflexivity. Qed.

Lemma IndexRune_absent s r : (IndexRune s r >? -1) = false <-> ~ In r s.
Proof.
  rewrite <- (indexFrom_absent (fun _ => true) s r 0) by lia. unfold IndexRune.
  destruct (indexFrom_range s r 0) as [H|H]; rewrite Z.gtb_ltb, Z.ltb_ge; lia.
Qed.

Section AttributeExtras.

Variable IsCharacterReferenceName : text -> bool.

Local Abbreviation isRef := IsCharacterReferenceName.
Local Abbreviation amb := (ambiguous IsCharacterReferenceName).

Lemma unambiguous_iff val :
  existsb amb (refsFrom val (-1)) = false <-> unambiguous isRef val.
Proof.
  rewrite existsb_false_iff. unfold unambiguous, ambiguous. split.
  - intros H i name Hc.
    assert (Hin : In (name, i) (refsFrom val (-1))).
    { apply refsFrom_candidate; [lia|]. split; [assumption|].
      destruct Hc as [Hi _]. lia. }
    specialize (H _ Hin). cbn in H. now apply negb_false_iff.
  - intros H [name i] Hin. apply refsFrom_candidate in Hin as [Hc _]; [|lia].
    cbn. apply negb_false_iff. eauto.
Qed.

Lemma IsValidAttributeValue_refs val :
  IsValidAttributeValue isRef val
  = Ret (negb (existsb amb (refsFrom val (-1)))).
Proof.
  unfold IsValidAttributeValue. now rewrite HasAmbiguousAmpersand_refs.
Qed.

Lemma IsValidAttributeValue_true_iff val :
  IsValidAttributeValue isRef val = Ret true <-> unambiguous isRef val.
Proof.
  rewrite IsValidAttributeValue_refs, <- unambiguous_iff.
  destruct (existsb amb (refsFrom val (-1))); cbn; split; congruence.
Qed.

(** X4: a text that lacks an ampersand or lacks a semicolon has no
    ambiguous ampersand: detection returns [false], escaping returns the
    text unchanged and the text is a valid attribute value. *)
Theorem no_ampersand_or_no_semicolon (val : text) :
  ~ In UnicodeAmpersand val \/ ~ In UnicodeSemicolon val ->
  HasAmbiguousAmpersand isRef val = Ret false /\
  EscapeAmbiguousAmpersands isRef val = Ret val /\
  IsValidAttributeValue isRef val = Ret true.
Proof.
  intros H.
  assert (Hno : refsFrom val (-1) = []).
  { apply refsFrom_no_candidate. intros a name Hc.
    apply candidate_has_both in Hc. tauto. }
  rewrite IsValidAttributeValue_refs, HasAmbiguousAmpersand_refs,
    EscapeAmbiguousAmpersands_escaped, escaped_unambiguous; rewrite Hno;
    repeat split.
Qed.

(** X5: on the text made of one candidate, ["&" + n + ";"] with [n]
    non-empty and alphanumeric, detection returns whether [n] is missing
    from the table, and escaping returns ["&amp;" + n + ";"] when it is
    missing and the text itself when it is not. *)
Theorem single_reference (n : text) :
  n <> [] -> forallb isAlnum n = true ->
  let val := UnicodeAmpersand :: n ++ [UnicodeSemicolon] in
  HasAmbiguousAmpersand isRef val = Ret (negb (isRef n)) /\
  EscapeAmbiguousAmpersands isRef val
  = Ret (if isRef n then val else htmlAmp ++ n ++ [UnicodeSemicolon]).
Proof.
  intros Hne Hal val. subst val.
  assert (Hrest : ~ In UnicodeAmpersand (n ++ [UnicodeSemicolon])).
  { intros Hin. apply in_app_or in Hin as [Hin|[Hin|[]]]; [|discriminate Hin].
    rewrite forallb_forall in Hal. specialize (Hal _ Hin). discriminate Hal. }
  split.
  - rewrite HasAmbiguousAmpersand_refs, refsFrom_start.
    cbn [refs]. rewrite Ascii.eqb_refl.
    rewrite (parseName_complete _ _ Hal).
    destruct n as [|c n]; [contradiction|].
    rewrite (refs_skip_name _ _ _ Hal). cbn. now rewrite orb_false_r.
  - rewrite EscapeAmbiguousAmpersands_escaped. cbn [escaped].
    rewrite Ascii.eqb_refl, (parseName_complete _ _ Hal).
    rewrite (escaped_no_ampersand _ _ Hrest).
    destruct n as [|c n]; [contradiction|].
    now destruct (isRef (c :: n)).
Qed.

(** X6: when ["amp"] is in the table and either the guard of
    [EscapeAttributeValueDoubleQuoted] lets the ampersand escaping run
    (the first ampersand comes before the first semicolon) or the input
    has no ambiguous ampersand, the output is a valid double-quoted
    attribute value. *)
Theorem EscapeAttributeValueDoubleQuoted_valid (val : text) :
  isRef (txt "amp") = true ->
  (IndexRune val UnicodeAmpersand <> -1 /\
   IndexRune val UnicodeAmpersand < IndexRune val UnicodeSemicolon)
  \/ HasAmbiguousAmpersand isRef val = Ret false ->
  exists out,
    EscapeAttributeValueDoubleQuoted isRef val = Ret out /\
    IsValidAttributeValueDoubleQuoted isRef out = Ret true.
Proof.
  intros Hamp Hcase.
  exists (Replace (escaped isRef val) UnicodeQuoteMark htmlQuot).
  split.
  - rewrite EscapeAttributeValueDoubleQuoted_cases.
    destruct Hcase as [[Ha Hlt]|Hhas].
    + replace (IndexRune val UnicodeAmpersand =? -1) with false
        by (symmetry; now apply Z.eqb_neq).
      now replace (IndexRune val UnicodeAmpersand <? IndexRune val UnicodeSemicolon)
        with true by (symmetry; now apply Z.ltb_lt).
    + rewrite HasAmbiguousAmpersand_refs in Hhas. injection Hhas as Hhas.
      apply existsb_filter_nil in Hhas.
      rewrite (escaped_unambiguous _ _ Hhas). now destruct (_ && _).
  - unfold IsValidAttributeValueDoubleQuoted.
    assert (Hq : ~ In UnicodeQuoteMark htmlQuot).
    { cbn. intros H. repeat (destruct H as [H|H]; [discriminate H|]). exact H. }
    rewrite (proj2 (IndexRune_absent _ _)) by now apply Replace_removes.
    rewrite IsValidAttributeValue_refs. f_equal. apply negb_true_iff.
    rewrite existsb_amb_names, refsFrom_start, (refs_Replace _ 0 0).
    rewrite <- existsb_amb_names, <- refsFrom_start.
    apply existsb_filter_nil. exact (escaped_clean isRef val Hamp).
Qed.

(** X7: [EscapeAttributeValueDoubleQuoted] is not idempotent.  On a
    double quote followed by [";&" + n + ";"], with [n] non-empty,
    alphanumeric and missing from the table, the first call replaces the
    quote only; its output starts with ["&#34;"], so the guard lets the
    second call escape the ampersand of [n]. *)
Theorem EscapeAttributeValueDoubleQuoted_not_idempotent (n : text) :
  n <> [] -> forallb isAlnum n = true -> isRef n = false ->
  let tail := n ++ [UnicodeSemicolon] in
  let val := UnicodeQuoteMark :: UnicodeSemicolon :: UnicodeAmpersand :: tail in
  let once := htmlQuot ++ UnicodeSemicolon :: UnicodeAmpersand :: tail in
  let twice := htmlQuot ++ UnicodeSemicolon :: htmlAmp ++ tail in
  EscapeAttributeValueDoubleQuoted isRef val = Ret once /\
  EscapeAttributeValueDoubleQuoted isRef once = Ret twice /\
  once <> twice.
Proof.
  intros Hne Hal Hn tail val once twice.
  assert (Hamp : ~ In UnicodeAmpersand tail).
  { intros Hin. apply in_app_or in Hin as [Hin|[Hin|[]]]; [|discriminate Hin].
    rewrite forallb_forall in Hal. specialize (Hal _ Hin). discriminate Hal. }
  assert (Hquo : ~ In UnicodeQuoteMark tail).
  { intros Hin. apply in_app_or in Hin as [Hin|[Hin|[]]]; [|discriminate Hin].
    exact (alnum_no_quote _ Hal Hin). }
  assert (Hp : parseName tail = Some n) by now apply parseName_complete.
  subst val once twice. clearbody tail.
  split; [|split].
  - rewrite EscapeAttributeValueDoubleQuoted_cases.
    change (IndexRune (UnicodeQuoteMark :: UnicodeSemicolon
                         :: UnicodeAmpersand :: tail) UnicodeAmpersand) with 2.
    change (IndexRune (UnicodeQuoteMark :: UnicodeSemicolon
                         :: UnicodeAmpersand :: tail) UnicodeSemicolon) with 1.
    change (negb (2 =? -1) && (2 <? 1)) with false. cbv iota.
    change (Replace (UnicodeQuoteMark :: UnicodeSemicolon
                       :: UnicodeAmpersand :: tail) UnicodeQuoteMark htmlQuot)
      with (htmlQuot ++ UnicodeSemicolon :: UnicodeAmpersand
              :: Replace tail UnicodeQuoteMark htmlQuot).
    now rewrite Replace_absent.
  - rewrite EscapeAttributeValueDoubleQuoted_cases.
    change (IndexRune (htmlQuot ++ UnicodeSemicolon :: UnicodeAmpersand :: tail)
              UnicodeAmpersand) with 0.
    change (IndexRune (htmlQuot ++ UnicodeSemicolon :: UnicodeAmpersand :: tail)
              UnicodeSemicolon) with 4.
    change (negb (0 =? -1) && (0 <? 4)) with true. cbv iota.
    assert (Hesc : escaped isRef (htmlQuot ++ UnicodeSemicolon
                                    :: UnicodeAmpersand :: tail)
                   = htmlQuot ++ UnicodeSemicolon :: htmlAmp ++ tail).
    { cbn. rewrite Hp. destruct n as [|c n]; [contradiction|]. rewrite Hn. cbn.
      now rewrite (escaped_no_ampersand _ _ Hamp). }
    rewrite Hesc. rewrite Replace_absent; [reflexivity|].
    intros H. cbn in H.
    repeat (destruct H as [H|H]; [discriminate H|]). exact (Hquo H).
  - intros H. apply (f_equal (@List.length _)) in H.
    rewrite !length_app in H. cbn [List.length] in H.
    rewrite length_app in H. change (List.length htmlAmp) with 5%nat in H. lia.
Qed.

Lemma quoted_true_iff val r :
  (if IndexRune val r >? -1 then Ret false
   else IsValidAttributeValue isRef val) = Ret true
  <-> ~ In r val /\ unambiguous isRef val.
Proof.
  destruct (IndexRune val r >? -1) eqn:E.
  - split; [discriminate|]. intros [Hr _].
    apply IndexRune_absent in Hr. congruence.
  - apply IndexRune_absent in E. rewrite IsValidAttributeValue_true_iff. tauto.
Qed.

Lemma IsValidAttributeValueUnquoted_iff val :
  IsValidAttributeValueUnquoted isRef val = Ret true
  <-> val <> [] /\
      (forall c, In c val ->
                 ~ In c SpaceCharacters /\
                 ~ In c InvalidAttributeValueUnquotedCharacters) /\
      unambiguous isRef val.
Proof.
  unfold IsValidAttributeValueUnquoted.
  destruct val as [|b val]; [cbn; split; [discriminate|tauto]|].
  rewrite len_cons_eqb.
  destruct (ContainsAny (b :: val) SpaceCharacters) eqn:Es.
  { split; [discriminate|]. intros (_ & H & _).
    assert (Hf : ContainsAny (b :: val) SpaceCharacters = false)
      by (apply ContainsAny_false_iff; [reflexivity|]; intros c Hc; now apply H).
    congruence. }
  destruct (ContainsAny (b :: val) InvalidAttributeValueUnquotedCharacters) eqn:Eu.
  { split; [discriminate|]. intros (_ & H & _).
    assert (Hf : ContainsAny (b :: val) InvalidAttributeValueUnquotedCharacters
                 = false)
      by (apply ContainsAny_false_iff; [reflexivity|]; intros c Hc; now apply H).
    congruence. }
  pose proof (proj1 (ContainsAny_false_iff _ SpaceCharacters eq_refl) Es) as Hs.
  pose proof (proj1 (ContainsAny_false_iff
                       _ InvalidAttributeValueUnquotedCharacters eq_refl) Eu)
    as Hq.
  rewrite IsValidAttributeValue_true_iff. split.
  - intros Hu. split; [discriminate|]. split; [|assumption].
    intros c Hc. split; auto.
  - tauto.
Qed.

(** X8: [IsValidAttributeValueSingleQuoted] and
    [IsValidAttributeValueDoubleQuoted] always return; the first returns
    [true] exactly on the texts without an apostrophe in which every
    candidate has its name in the table, the second on those without a
    double quote. *)
Theorem IsValidAttributeValue_quoted (val : text) :
  (exists b1 b2,
      IsValidAttributeValueSingleQuoted isRef val = Ret b1 /\
      IsValidAttributeValueDoubleQuoted isRef val = Ret b2) /\
  (IsValidAttributeValueSingleQuoted isRef val = Ret true
   <-> ~ In UnicodeApostrophe val /\ unambiguous isRef val) /\
  (IsValidAttributeValueDoubleQuoted isRef val = Ret true
   <-> ~ In UnicodeQuoteMark val /\ unambiguous isRef val).
Proof.
  split; [|split; apply quoted_true_iff].
  unfold IsValidAttributeValueSingleQuoted, IsValidAttributeValueDoubleQuoted.
  rewrite IsValidAttributeValue_refs.
  destruct (IndexRune val UnicodeApostrophe >? -1),
    (IndexRune val UnicodeQuoteMark >? -1); eauto.
Qed.

(** X9: [IsValidAttributeValueUnquoted] returns [true] exactly on the
    non-empty texts that have no space character, no quotation mark,
    apostrophe, less-than, equals or greater-than sign or grave accent,
    and no ambiguous ampersand; such a text is also valid single-quoted
    and double-quoted. *)
Theorem IsValidAttributeValueUnquoted_spec (val : text) :
  (IsValidAttributeValueUnquoted isRef val = Ret true
   <-> val <> [] /\
       (forall c, In c val ->
                  ~ In c SpaceCharacters /\
                  ~ In c InvalidAttributeValueUnquotedCharacters) /\
       unambiguous isRef val) /\
  (IsValidAttributeValueUnquoted isRef val = Ret true ->
   IsValidAttributeValueSingleQuoted isRef val = Ret true /\
   IsValidAttributeValueDoubleQuoted isRef val = Ret true).
Proof.
  split; [apply IsValidAttributeValueUnquoted_iff|]. intros H.
  apply IsValidAttributeValueUnquoted_iff in H as (_ & Hc & Hu).
  unfold IsValidAttributeValueSingleQuoted, IsValidAttributeValueDoubleQuoted.
  rewrite !(proj2 (IndexRune_absent _ _)).
  - split; now apply IsValidAttributeValue_true_iff.
  - intros Hin. apply (proj2 (Hc _ Hin)). cbn. tauto.
  - intros Hin. apply (proj2 (Hc _ Hin)). cbn. tauto.
Qed.

End AttributeExtras.

(** ** Tag names and ID values *)

Lemma forallb_negb_existsb {A} (f : A -> bool) l :
  forallb f l = negb (existsb (fun x => negb (f x)) l).
Proof.
  induction l as [|x l IH]; [reflexivity|]. cbn. rewrite IH.
  now destruct (f x).
Qed.

Lemma tagNameLoop_existsb runes :
  tagNameLoop runes
  = negb (existsb (fun p => negb (between "0" "9" (snd p) || between "a" "z" (snd p)
                                  || between "A" "Z" (snd p))) runes).
Proof.
  induction runes as [|[i c] runes IH]; [reflexivity|].
  cbn [tagNameLoop existsb snd]. rewrite IH.
  destruct (between "0" "9" c || between "a" "z" c || between "A" "Z" c);
    reflexivity.
Qed.

Lemma between_high lo hi c : code hi < 128 -> 128 <= c -> between lo hi c = false.
Proof.
  intros Hh Hc. unfold between. apply andb_false_iff. right. apply Z.leb_gt. lia.
Qed.

(** X10: [IsValidHTMLTagName] accepts exactly the texts whose bytes are
    all ASCII letters or digits, the empty text among them. *)
Theorem IsValidHTMLTagName_bytes (name : text) :
  IsValidHTMLTagName name = forallb isAlnum name.
Proof.
  unfold IsValidHTMLTagName. rewrite tagNameLoop_existsb.
  rewrite (existsb_rangeString
             (fun c => negb (between "0" "9" c || between "a" "z" c
                             || between "A" "Z" c)) true).
  - rewrite forallb_negb_existsb. f_equal. apply existsb_same. intros b.
    unfold isAlnum, between. f_equal.
    destruct (_ && _), (_ && _), (_ && _); reflexivity.
  - intros c Hc. rewrite !between_high by (cbn; lia || assumption). reflexivity.
Qed.

Lemma html4Loop_existsb runes :
  html4Loop runes
  = negb (existsb
            (fun p => negb (between "a" "z" (snd p)) && negb (between "A" "Z" (snd p))
                      && negb (between "0" "9" (snd p))
                      && negb (snd p =? code ":") && negb (snd p =? code "_")
                      && negb (snd p =? code "-") && negb (snd p =? code "."))
            runes).
Proof.
  induction runes as [|[i c] runes IH]; [reflexivity|].
  cbn [html4Loop existsb snd]. rewrite IH.
  now destruct (_ && _).
Qed.

Lemma isNameByte_code b :
  negb (between "a" "z" (code b)) && negb (between "A" "Z" (code b))
  && negb (between "0" "9" (code b))
  && negb (code b =? code ":") && negb (code b =? code "_")
  && negb (code b =? code "-") && negb (code b =? code ".")
  = negb (isNameByte b).
Proof.
  destruct b as [[] [] [] [] [] [] [] []]; reflexivity.
Qed.

Lemma html4Loop_bytes (val : text) :
  html4Loop (rangeString val 0) = forallb isNameByte val.
Proof.
  rewrite html4Loop_existsb.
  rewrite (existsb_rangeString
             (fun c => negb (between "a" "z" c) && negb (between "A" "Z" c)
                       && negb (between "0" "9" c)
                       && negb (c =? code ":") && negb (c =? code "_")
                       && negb (c =? code "-") && negb (c =? code ".")) true).
  - rewrite forallb_negb_existsb. f_equal. apply existsb_same.
    intros b. apply isNameByte_code.
  - intros c Hc. rewrite !between_high by (cbn; lia || assumption).
    repeat (match goal with
            | |- context [c =? ?k] =>
                replace (c =? k) with false by (symmetry; apply Z.eqb_neq; cbn; lia)
            end).
    reflexivity.
Qed.

(** X11: [IsValidHtml4IdValue] accepts exactly the texts that start with
    an ASCII letter and whose bytes are all ASCII letters, digits, colons,
    underscores, hyphens or periods. *)
Theorem IsValidHtml4IdValue_bytes (val : text) :
  IsValidHtml4IdValue val
  = match val with
    | [] => false
    | first :: _ => isLetter first && forallb isNameByte val
    end.
Proof.
  unfold IsValidHtml4IdValue. destruct val as [|first rest]; [reflexivity|].
  rewrite len_cons_eqb, html4Loop_bytes. unfold isLetter.
  destruct (between "a" "z" (code first)), (between "A" "Z" (code first));
    reflexivity.
Qed.

Lemma isNameByte_safe b : isNameByte b = true -> safeByte b = true.
Proof.
  destruct b as [[] [] [] [] [] [] [] []]; intros H;
    (reflexivity || discriminate H).
Qed.

Lemma safeByte_spec b :
  safeByte b = true ->
  code b < 128 /\
  ~ In b SpaceCharacters /\ ~ In b ControlCharacters /\
  ~ In b InvalidAttributeNameCharacters /\
  ~ In b InvalidAttributeValueUnquotedCharacters /\
  b <> UnicodeAmpersand.
Proof.
  unfold safeByte. intros H. apply andb_prop in H as [Hc H].
  apply Z.ltb_lt in Hc. apply negb_true_iff in H.
  rewrite existsb_false_iff in H.
  assert (Hin : forall l, (forall x, In x l ->
                   In x (SpaceCharacters ++ ControlCharacters
                           ++ InvalidAttributeNameCharacters
                           ++ InvalidAttributeValueUnquotedCharacters
                           ++ [UnicodeAmpersand])) -> ~ In b l).
  { intros l Hl Hb. specialize (H b (Hl b Hb)). now rewrite Ascii.eqb_refl in H. }
  split; [assumption|].
  repeat split; try (apply Hin; intros x Hx; rewrite !in_app_iff; tauto).
  intros ->. apply (Hin [UnicodeAmpersand]); [|now left].
  intros x Hx. rewrite !in_app_iff. tauto.
Qed.

(** A text of safe bytes passes every validator of names and values. *)
Lemma safe_text (val : text) :
  val <> [] -> forallb safeByte val = true ->
  IsValidHtml5IdValue val = true /\
  IsValidAttributeName val = true /\
  forall isRef,
    IsValidAttributeValueUnquoted isRef val = Ret true /\
    IsValidAttributeValueSingleQuoted isRef val = Ret true /\
    IsValidAttributeValueDoubleQuoted isRef val = Ret true.
Proof.
  intros Hne Hall. rewrite forallb_forall in Hall.
  assert (Hs : forall c, In c val -> ~ In c SpaceCharacters)
    by (intros c Hc; apply (safeByte_spec c (Hall c Hc))).
  assert (Hct : forall c, In c val -> ~ In c ControlCharacters)
    by (intros c Hc; apply (safeByte_spec c (Hall c Hc))).
  assert (Hn : forall c, In c val -> ~ In c InvalidAttributeNameCharacters)
    by (intros c Hc; apply (safeByte_spec c (Hall c Hc))).
  assert (Hu : forall c, In c val -> ~ In c InvalidAttributeValueUnquotedCharacters)
    by (intros c Hc; apply (safeByte_spec c (Hall c Hc))).
  assert (Ha : ~ In UnicodeAmpersand val).
  { intros Hc. now apply (safeByte_spec _ (Hall _ Hc)). }
  assert (Hlen : (len val =? 0) = false)
    by (destruct val; [contradiction|apply len_cons_eqb]).
  assert (Hcs : ContainsAny val SpaceCharacters = false)
    by (now apply ContainsAny_false_iff).
  split; [unfold IsValidHtml5IdValue; now rewrite Hlen, Hcs|].
  split.
  - unfold IsValidAttributeName. rewrite Hlen, Hcs.
    rewrite (proj2 (ContainsAny_false_iff val ControlCharacters eq_refl) Hct).
    rewrite (proj2 (ContainsAny_false_iff val InvalidAttributeNameCharacters
                      eq_refl) Hn).
    cbn [orb]. apply negb_true_iff.
    rewrite Z.gtb_ltb. apply Z.ltb_ge. unfold IndexFunc.
    pose proof (indexWhere_found isUnicodeNonCharacter val) as Hf.
    rewrite <- (existsb_through_map isUnicodeNonCharacter snd) in Hf.
    rewrite rangeString_all_ascii in Hf.
    + assert (He : existsb isUnicodeNonCharacter (map code val) = false).
      { apply existsb_false_iff. intros x Hx.
        apply in_map_iff in Hx as [b [<- Hb]].
        pose proof (code_range b).
        destruct (safeByte_spec b (Hall b Hb)) as [Hb128 _].
        unfold isUnicodeNonCharacter, unicodeIs. apply existsb_false_iff.
        intros [lo hi] Hr. cbn [fst snd].
        apply andb_false_iff. left. apply Z.leb_gt.
        cbn in Hr. repeat (destruct Hr as [Hr|Hr]; [injection Hr as <- <-; lia|]).
        contradiction. }
      rewrite He, Z.geb_leb in Hf. apply Z.leb_gt in Hf. lia.
    + apply forallb_forall. intros b Hb. apply Z.ltb_lt.
      apply (safeByte_spec b (Hall b Hb)).
  - intros isRef.
    assert (Hun : unambiguous isRef val).
    { intros i name Hc. apply candidate_has_both in Hc. tauto. }
    assert (Hq : IsValidAttributeValueUnquoted isRef val = Ret true).
    { apply IsValidAttributeValueUnquoted_iff. repeat split; auto. }
    split; [exact Hq|].
    unfold IsValidAttributeValueSingleQuoted, IsValidAttributeValueDoubleQuoted.
    split; apply quoted_true_iff; (split; [|assumption]);
      intros Hin; apply (Hu _ Hin); cbn; tauto.
Qed.

(** X12: a valid HTML 4 ID value is also a valid HTML 5 ID value, a valid
    attribute name, and a valid attribute value, unquoted, single-quoted
    or double-quoted, whatever the table of reference names. *)
Theorem IsValidHtml4IdValue_stricter (val : text) :
  IsValidHtml4IdValue val = true ->
  IsValidHtml5IdValue val = true /\
  IsValidAttributeName val = true /\
  forall isRef,
    IsValidAttributeValueUnquoted isRef val = Ret true /\
    IsValidAttributeValueSingleQuoted isRef val = Ret true /\
    IsValidAttributeValueDoubleQuoted isRef val = Ret true.
Proof.
  intros H. unfold IsValidHtml4IdValue in H.
  destruct val as [|first rest]; [discriminate H|].
  rewrite len_cons_eqb, html4Loop_bytes in H.
  destruct (negb _ && negb _); [discriminate H|].
  apply safe_text; [discriminate|].
  apply forallb_forall. intros b Hin. apply isNameByte_safe.
  rewrite forallb_forall in H. auto.
Qed.

(** X12 on the ID ["a.b-c"]. *)
Lemma IsValidHtml4IdValue_stricter_witness :
  IsValidHtml4IdValue (txt "a.b-c") = true /\
  IsValidAttributeName (txt "a.b-c") = true.
Proof.
  split; [reflexivity|].
  apply (IsValidHtml4IdValue_stricter (txt "a.b-c")). reflexivity.
Defined.

(** ** Attribute names *)

Lemma gtb_minus_one x : (x >? -1) = (x >=? 0).
Proof.
  rewrite Z.gtb_ltb, Z.geb_leb.
  destruct (Z.ltb_spec (-1) x), (Z.leb_spec 0 x); (reflexivity || lia).
Qed.

(** X13: [IsValidAttributeName] accepts exactly the non-empty texts that
    have no space character, none of the control characters NUL, BEL, BS,
    VT, ESC and DEL, none of the five characters of
    [InvalidAttributeNameCharacters], and no Unicode noncharacter among
    their code points. *)
Theorem IsValidAttributeName_spec (name : text) :
  IsValidAttributeName name = true
  <-> name <> [] /\
      (forall c, In c name ->
                 ~ In c SpaceCharacters /\ ~ In c ControlCharacters /\
                 ~ In c InvalidAttributeNameCharacters) /\
      (forall r, In r (codePoints name) -> isUnicodeNonCharacter r = false).
Proof.
  unfold IsValidAttributeName.
  rewrite negb_true_iff, !orb_false_iff.
  rewrite (ContainsAny_false_iff name SpaceCharacters eq_refl).
  rewrite (ContainsAny_false_iff name ControlCharacters eq_refl).
  rewrite (ContainsAny_false_iff name InvalidAttributeNameCharacters eq_refl).
  unfold IndexFunc. rewrite gtb_minus_one, indexWhere_found.
  rewrite <- (existsb_through_map isUnicodeNonCharacter snd).
  fold (codePoints name). rewrite existsb_false_iff.
  assert (Hlen : (len name =? 0) = false <-> name <> []).
  { destruct name; [cbn; split; [discriminate|tauto]|].
    rewrite len_cons_eqb. split; [discriminate|reflexivity]. }
  rewrite Hlen. split.
  - intros ((((Hne & Hs) & Hc) & Hn) & Hu). repeat split; auto.
  - intros (Hne & H & Hu). repeat split; auto; intros c Hc; now apply H.
Qed.

(** ** Identifiers without a backslash *)

Lemma cssBody_no_escape i char st st' :
  wasSlash st = false -> inEscape st = false -> char <> backslash ->
  cssBody i char st = Some st' ->
  plainRune char = true /\ wasSlash st' = false /\ inEscape st' = false.
Proof.
  intros Hw He Hc H. unfold cssBody in H. rewrite Hw, He in H.
  destruct ((i =? 0) && _); [discriminate H|].
  destruct ((i =? 1) && _ && _); [discriminate H|].
  unfold plainRune.
  destruct (char >=? 160); [injection H as <-; repeat split|].
  destruct (char =? code "-"); [injection H as <-; repeat split|].
  destruct (char =? code "_"); [injection H as <-; repeat split|].
  cbn [orb] in *.
  destruct (between "a" "z" char).
  { destruct (char >? code "f"); injection H as <-; repeat split;
      now destruct (hexCount st >? 6). }
  destruct (between "A" "Z" char).
  { destruct (char >? code "F"); injection H as <-; repeat split;
      now destruct (hexCount st >? 6). }
  destruct (between "0" "9" char).
  { injection H as <-; repeat split; now destruct (hexCount st >? 6). }
  destruct (Z.eqb_spec char (code "\")) as [Heq|_]; [contradiction|].
  destruct (hexCount st >? 6); discriminate H.
Qed.

Lemma cssRun_no_escape runes :
  forall st st',
    wasSlash st = false -> inEscape st = false ->
    (forall p, In p runes -> snd p <> backslash) ->
    cssRun runes st = Some st' ->
    Forall (fun p => plainRune (snd p) = true) runes.
Proof.
  induction runes as [|[i c] runes IH]; intros st st' Hw He Hb H; [constructor|].
  cbn [cssRun] in H. destruct (cssBody i c st) as [st1|] eqn:Hbody; [|discriminate H].
  destruct (cssBody_no_escape i c st st1 Hw He) as (Hp & Hw1 & He1);
    [apply (Hb (i, c)); now left|assumption|].
  constructor; [exact Hp|].
  apply (IH st1 st' Hw1 He1); [|assumption].
  intros p Hin. apply Hb. now right.
Qed.

Lemma no_backslash_rune (val : text) :
  ~ In "\"%char val ->
  forall p, In p (rangeString val 0) -> snd p <> backslash.
Proof.
  intros Hno p Hin Heq.
  assert (He : existsb (fun q => snd q =? backslash) (rangeString val 0) = true).
  { apply existsb_exists. exists p. split; [assumption|]. now apply Z.eqb_eq. }
  rewrite (existsb_rangeString (fun c => c =? backslash) false) in He.
  - apply existsb_exists in He as [b [Hb Hc]]. apply Z.eqb_eq in Hc.
    apply code_inj in Hc. now subst b.
  - intros c Hc. apply Z.eqb_neq. unfold backslash. cbn. lia.
Qed.

Lemma css_plain_without_backslash (val : text) :
  ~ In "\"%char val -> IsValidCss3Identifier val = true ->
  Forall (fun p => plainRune (snd p) = true) (rangeString val 0).
Proof.
  intros Hno H. unfold IsValidCss3Identifier in H.
  destruct (len val =? 0); [discriminate H|].
  rewrite cssLoop_cssRun in H.
  destruct (cssRun (rangeString val 0) lexer0) as [st'|] eqn:Hrun; [|discriminate H].
  apply (cssRun_no_escape _ lexer0 st'); [reflexivity|reflexivity| |assumption].
  now apply no_backslash_rune.
Qed.

(** X14: a valid identifier that has no backslash is non-empty, is made
    of code points from U+00A0 on, hyphens, underscores and ASCII letters
    and digits only, does not start with a digit, and does not start with
    a hyphen followed by a hyphen or a digit. *)
Theorem IsValidCss3Identifier_without_backslash (val : text) :
  ~ In "\"%char val -> IsValidCss3Identifier val = true ->
  val <> [] /\
  Forall (fun c => plainRune c = true) (codePoints val) /\
  (forall c cs, codePoints val = c :: cs -> between "0" "9" c = false) /\
  (forall c cs, codePoints val = code "-" :: c :: cs ->
                c <> code "-" /\ between "0" "9" c = false).
Proof.
  intros Hno H.
  pose proof (css_plain_without_backslash val Hno H) as Hplain.
  destruct val as [|b0 s1]; [discriminate H|].
  split; [discriminate|].
  split; [unfold codePoints; now rewrite Forall_map|].
  unfold IsValidCss3Identifier in H. rewrite len_cons_eqb in H.
  destruct (rangeString_head b0 s1) as (c1 & R & HR & _ & HR1).
  rewrite (codePoints_cons _ _ _ _ HR). rewrite HR in H. cbn [cssLoop] in H.
  split.
  - intros c cs Hcp. injection Hcp as -> _.
    destruct (between "0" "9" c) eqn:Hd; [|reflexivity].
    now rewrite (cssBody_digit_first _ _ Hd) in H.
  - intros c cs Hcp. injection Hcp as -> Hcp.
    specialize (HR1 ltac:(cbn; lia)). subst R.
    destruct s1 as [|b1 s2]; [discriminate Hcp|].
    destruct (rangeString_second b1 s2) as (c2 & R2 & HR2 & _).
    rewrite HR2 in Hcp, H. cbn [map snd] in Hcp. injection Hcp as -> _.
    change (cssBody 0 (code "-") lexer0)
      with (Some (mkLexer (code "-") false false 0)) in H.
    cbn [cssLoop] in H.
    destruct (Z.eq_dec c (code "-")) as [Hc|Hc].
    { rewrite cssBody_hyphen_second in H; [discriminate H|reflexivity|now left]. }
    split; [assumption|].
    destruct (between "0" "9" c) eqn:Hd; [|reflexivity].
    rewrite cssBody_hyphen_second in H; [discriminate H|reflexivity|now right].
Qed.

(** X14 on the identifier ["a-b"]. *)
Lemma IsValidCss3Identifier_without_backslash_witness :
  Forall (fun c => plainRune c = true) (codePoints (txt "a-b")).
Proof.
  apply (IsValidCss3Identifier_without_backslash (txt "a-b")).
  - cbn. intros H. repeat (destruct H as [H|H]; [discriminate H|]). exact H.
  - reflexivity.
Defined.

(** X15: [IsValidCss3IdValue] accepts exactly a number sign followed by a
    valid identifier; the test on the length rejects nothing else. *)
Theorem IsValidCss3IdValue_spec (val : text) :
  IsValidCss3IdValue val = true
  <-> exists rest,
        val = "#"%char :: rest /\ IsValidCss3Identifier rest = true.
Proof.
  unfold IsValidCss3IdValue. split.
  - destruct (len val <? 2); [discriminate|].
    destruct val as [|c rest]; [discriminate|].
    intros H. apply andb_prop in H as [Hc Hr]. apply Ascii.eqb_eq in Hc.
    subst c. now exists rest.
  - intros (rest & -> & Hr).
    destruct rest as [|b rest]; [discriminate Hr|].
    replace (len ("#"%char :: b :: rest) <? 2) with false.
    + now rewrite Ascii.eqb_refl, Hr.
    + symmetry. apply Z.ltb_ge. rewrite !len_cons. pose proof (len_nonneg rest). lia.
Qed.

Lemma plainRune_not_space c : plainRune c = true -> isSpaceRune c = false.
Proof.
  unfold plainRune, isSpaceRune, between. intros H.
  rewrite !orb_true_iff, !andb_true_iff, !Z.leb_le, Z.geb_le, !Z.eqb_eq in H.
  cbn in H.
  repeat (apply orb_false_iff; split); apply Z.eqb_neq; lia.
Qed.

(** X16: a CSS 3 ID value without a backslash is a valid HTML 5 ID value;
    with a backslash it need not be, as on ["#a\ b"], which has an escaped
    space. *)
Theorem IsValidCss3IdValue_html5 :
  (forall val,
      ~ In "\"%char val -> IsValidCss3IdValue val = true ->
      IsValidHtml5IdValue val = true) /\
  IsValidCss3IdValue (txt "#a\ b") = true /\
  IsValidHtml5IdValue (txt "#a\ b") = false.
Proof.
  split; [|split; reflexivity].
  intros val Hno H. unfold IsValidCss3IdValue in H.
  destruct (len val <? 2); [discriminate H|].
  destruct val as [|c rest]; [discriminate H|].
  apply andb_prop in H as [Hc Hr]. apply Ascii.eqb_eq in Hc. subst c.
  assert (Hno' : ~ In "\"%char rest) by (intros Hin; apply Hno; now right).
  pose proof (css_plain_without_backslash rest Hno' Hr) as Hplain.
  unfold IsValidHtml5IdValue. rewrite len_cons_eqb. cbn [orb].
  apply negb_true_iff. apply ContainsAny_false_iff; [reflexivity|].
  intros c [<-|Hin] Hs.
  - cbn in Hs. repeat (destruct Hs as [Hs|Hs]; [discriminate Hs|]). exact Hs.
  - assert (He : existsb (fun p => isSpaceRune (snd p)) (rangeString rest 0) = true).
    { rewrite (existsb_rangeString isSpaceRune false).
      - apply existsb_exists. exists c. split; [assumption|].
        cbn in Hs. repeat (destruct Hs as [<-|Hs]; [reflexivity|]). contradiction.
      - intros r Hr128. unfold isSpaceRune.
        repeat (apply orb_false_iff; split); apply Z.eqb_neq; lia. }
    apply existsb_exists in He as [p [Hp Hsp]].
    rewrite Forall_forall in Hplain.
    now rewrite (plainRune_not_space _ (Hplain p Hp)) in Hsp.
Qed.

(** X16 on the ID value ["#a-b"]. *)
Lemma IsValidCss3IdValue_html5_witness :
  IsValidHtml5IdValue (txt "#a-b") = true.
Proof.
  apply (proj1 IsValidCss3IdValue_html5 (txt "#a-b")).
  - cbn. intros H. repeat (destruct H as [H|H]; [discriminate H|]). exact H.
  - reflexivity.
Defined.

(** ** HTML 4 IDs as CSS identifiers *)

Lemma isLetter_start b :
  isLetter b = true ->
  code b < 128 /\ plainRune (code b) = true /\
  between "0" "9" (code b) = false /\ code b <> code "-".
Proof.
  destruct b as [[] [] [] [] [] [] [] []]; intros H; try discriminate H;
    repeat split; cbn; lia.
Qed.

Lemma isNameByte_plain b :
  isNameByte b = true -> b <> ":"%char -> b <> "."%char ->
  plainRune (code b) = true.
Proof.
  destruct b as [[] [] [] [] [] [] [] []]; intros H H1 H2;
    try discriminate H; try reflexivity; congruence.
Qed.

Lemma isNameByte_ascii b : isNameByte b = true -> (code b <? 128) = true.
Proof.
  destruct b as [[] [] [] [] [] [] [] []]; intros H;
    (reflexivity || discriminate H).
Qed.

(** X17: a valid HTML 4 ID value that has no colon and no period is a
    valid CSS 3 identifier, and with a number sign in front a valid CSS 3
    ID value; with a colon it is not, as on ["a:b"]. *)
Theorem IsValidHtml4IdValue_css3 :
  (forall val,
      IsValidHtml4IdValue val = true ->
      ~ In ":"%char val -> ~ In "."%char val ->
      IsValidCss3Identifier val = true /\
      IsValidCss3IdValue ("#"%char :: val) = true) /\
  IsValidHtml4IdValue (txt "a:b") = true /\
  IsValidCss3Identifier (txt "a:b") = false.
Proof.
  split; [|split; reflexivity].
  intros val H Hcolon Hperiod.
  assert (Hid : IsValidCss3Identifier val = true).
  { unfold IsValidHtml4IdValue in H.
    destruct val as [|first rest]; [discriminate H|].
    rewrite len_cons_eqb, html4Loop_bytes in H.
    destruct (isLetter first) eqn:Hl;
      [|unfold isLetter in Hl; apply orb_false_iff in Hl as [E1 E2];
        rewrite E1, E2 in H; discriminate H].
    destruct (negb _ && negb _); [discriminate H|].
    destruct (isLetter_start _ Hl) as (Hlt & Hp & Hd & Hh).
    cbn [forallb] in H. apply andb_prop in H as [_ Hrest].
    unfold IsValidCss3Identifier.
    rewrite len_cons_eqb, rangeString_cons, (decodeRune_ascii _ _ Hlt).
    cbn [fst snd skipn]. rewrite cssLoop_cssRun. cbn [cssRun].
    destruct (cssBody_plain 0 (code first) lexer0 Hp) as [st1 Hst1];
      [intros _; exact Hd|intros Hi; discriminate Hi|].
    rewrite Hst1. pose proof (cssBody_first _ _ _ _ Hst1) as Hf.
    change (0 =? 0) with true in Hf. cbv iota in Hf.
    destruct (cssRun_plain_other (rangeString rest (0 + Z.of_nat 1)) st1)
      as [st' ->]; [congruence| |reflexivity].
    apply Forall_forall. intros p Hin. split.
    - pose proof (rangeString_lower rest (0 + Z.of_nat 1)) as Hlow.
      rewrite Forall_forall in Hlow. specialize (Hlow p Hin). lia.
    - assert (Hin' : In (snd p) (map snd (rangeString rest (0 + Z.of_nat 1))))
        by now apply in_map.
      rewrite rangeString_all_ascii in Hin'.
      + apply in_map_iff in Hin' as [b [<- Hb]].
        rewrite forallb_forall in Hrest.
        apply isNameByte_plain; [auto| |]; intros ->;
          [apply Hcolon|apply Hperiod]; now right.
      + apply forallb_forall. intros b Hb. apply isNameByte_ascii.
        rewrite forallb_forall in Hrest. auto. }
  split; [exact Hid|].
  unfold IsValidCss3IdValue.
  destruct val as [|b rest]; [discriminate Hid|].
  replace (len ("#"%char :: b :: rest) <? 2) with false.
  - now rewrite Ascii.eqb_refl, Hid.
  - symmetry. apply Z.ltb_ge. rewrite !len_cons. pose proof (len_nonneg rest). lia.
Qed.

(** X17 on the ID ["a-b_9"]. *)
Lemma IsValidHtml4IdValue_css3_witness :
  IsValidCss3Identifier (txt "a-b_9") = true.
Proof.
  apply (proj1 IsValidHtml4IdValue_css3 (txt "a-b_9")).
  - reflexivity.
  - cbn. intros H. repeat (destruct H as [H|H]; [discriminate H|]). exact H.
  - cbn. intros H. repeat (destruct H as [H|H]; [discriminate H|]). exact H.
Defined.

(** ** The properties above at [sampleTable] *)

(** X2 on ["a &tuesday;"]. *)
Lemma EscapeAmbiguousAmpersands_clean_witness :
  sampleTable (txt "amp") = true /\
  exists t',
    EscapeAmbiguousAmpersands sampleTable (txt "a &tuesday;") = Ret t' /\
    HasAmbiguousAmpersand sampleTable t' = Ret false.
Proof.
  split; [reflexivity|].
  destruct (EscapeAmbiguousAmpersands_clean sampleTable (txt "a &tuesday;") eq_refl)
    as (t' & H1 & H2 & _).
  exists t'. split; assumption.
Defined.

(** X4 on ["what; about this?"], which has no ampersand. *)
Lemma no_ampersand_or_no_semicolon_witness :
  HasAmbiguousAmpersand sampleTable (txt "what; about this?") = Ret false.
Proof.
  apply (no_ampersand_or_no_semicolon sampleTable (txt "what; about this?")).
  left. cbn. intros H. repeat (destruct H as [H|H]; [discriminate H|]). exact H.
Defined.

(** X5 on the name ["dan"]. *)
Lemma single_reference_witness :
  EscapeAmbiguousAmpersands sampleTable (txt "&dan;") = Ret (txt "&amp;dan;").
Proof.
  apply (single_reference sampleTable (txt "dan")); [discriminate|reflexivity].
Defined.

(** X6 on ["&dan;"], where the ampersand comes before the semicolon. *)
Lemma EscapeAttributeValueDoubleQuoted_valid_witness :
  exists out,
    EscapeAttributeValueDoubleQuoted sampleTable (txt "&dan;") = Ret out /\
    IsValidAttributeValueDoubleQuoted sampleTable out = Ret true.
Proof.
  apply (EscapeAttributeValueDoubleQuoted_valid sampleTable (txt "&dan;"));
    [reflexivity|].
  left. split; [discriminate|reflexivity].
Defined.

(** X7 on the name ["dan"]. *)
Lemma EscapeAttributeValueDoubleQuoted_not_idempotent_witness :
  EscapeAttributeValueDoubleQuoted sampleTable
    (UnicodeQuoteMark :: txt ";&dan;")
  = Ret (txt "&#34;;&dan;") /\
  EscapeAttributeValueDoubleQuoted sampleTable (txt "&#34;;&dan;")
  = Ret (txt "&#34;;&amp;dan;").
Proof.
  destruct (EscapeAttributeValueDoubleQuoted_not_idempotent sampleTable (txt "dan"))
    as (H1 & H2 & _); [discriminate|reflexivity|reflexivity|].
  split; assumption.
Defined.

(** X9 on the value ["email"]. *)
Lemma IsValidAttributeValueUnquoted_spec_witness :
  IsValidAttributeValueUnquoted sampleTable (txt "email") = Ret true /\
  IsValidAttributeValueSingleQuoted sampleTable (txt "email") = Ret true /\
  IsValidAttributeValueDoubleQuoted sampleTable (txt "email") = Ret true.
Proof.
  split; [reflexivity|].
  apply (proj2 (IsValidAttributeValueUnquoted_spec sampleTable (txt "email"))).
  reflexivity.
Defined.
